(** * tsynamo: put-item query builder, expression nodes and query compiler

    A shallow embedding of the put-item query builder
    ([queryBuilders/putItemQueryBuilder.ts]), of the node model it builds
    ([nodes/returnValuesNode.ts], [nodes/updateExpression.ts]) and of the
    collaborators it delegates to (expression builder, query compiler,
    await guard), followed by the properties the specification states
    about them. *)

From Stdlib Require Import Ascii.
From stdpp Require Import base option list strings gmap pretty.

Set Warnings "-register-all,-clear-no-such-hyp".

(** ** Node model *)

(** [nodes/returnValuesNode.ts]: the string-literal union
    [ReturnValuesOptions]. *)
Inductive ReturnValuesOptions :=
  | NONE
  | ALL_OLD
  | UPDATED_OLD
  | ALL_NEW
  | UPDATED_NEW.

(** [ReturnValuesNode]: [{ kind: "ReturnValuesNode"; option }].  The [kind]
    tag of every node is a one-element literal type; it is fixed by the
    record type and carries no data. *)
Module ReturnValuesNode.
Record t := mk {
  option : ReturnValuesOptions
}.
End ReturnValuesNode.

(** Literal attribute values of the document store.  Numbers are kept as
    integers: no property below computes with them. *)
Inductive AttributeValue :=
  | AVString (s : string)
  | AVNumber (n : Z)
  | AVBool (b : bool)
  | AVNull
  | AVList (items : list AttributeValue)
  | AVMap (entries : gmap string AttributeValue).

(** An item payload: attribute name to literal. *)
Abbreviation Item := (gmap string AttributeValue).

(** [{ kind: "ItemNode"; item }], as the [item] setter builds it. *)
Module ItemNode.
Record t := mk {
  item : Item
}.
End ItemNode.

(** [{ kind: "TableNode"; table }], as the query creator builds it. *)
Module TableNode.
Record t := mk {
  table : string
}.
End TableNode.

(** *** Condition nodes *)

Inductive ComparatorOp := CmpEq | CmpNe | CmpLt | CmpLe | CmpGt | CmpGe.

Inductive AttributeFunctionName := attribute_exists | attribute_not_exists.

(** The logical joiner relating a condition to its predecessor. *)
Inductive Connector := AND | OR.

(** Modelled from the spec: the declarations of the condition node types
    ([nodes/expressionNode.ts] and the files it imports) are missing from
    the sources; the variants follow the spec's "Expression Node" list.
    A [Group] holds the ordered sequence of (connector, node) pairs. *)
Inductive Node :=
  | Comparator (path : string) (op : ComparatorOp) (value : AttributeValue)
  | AttributeFunction (path : string) (fn : AttributeFunctionName)
  | BeginsWith (path : string) (prefix : AttributeValue)
  | Contains (path : string) (value : AttributeValue)
  | Between (path : string) (lower upper : AttributeValue)
  | Not (child : Node)
  | Group (children : list (Connector * Node)).

(** The node an expression builder accumulates and a put node carries in its
    [conditionExpression] field: the children of the top-level group. *)
Abbreviation ExpressionNode := (list (Connector * Node)).

(** *** Update nodes *)

(** Modelled from the spec: the three entry types imported by
    [nodes/updateExpression.ts] are missing from the sources.  A set
    entry assigns a literal, an increment or decrement over another path, or
    a list-append; a remove entry names a path; an add entry adds a numeric
    or set value to a path. *)
Inductive SetValueExpr :=
  | SetLiteral (value : AttributeValue)
  | SetIncrement (operand : string) (amount : AttributeValue)
  | SetDecrement (operand : string) (amount : AttributeValue)
  | SetListAppend (operand : string) (items : AttributeValue).

Record SetUpdateExpression := mkSetUpdateExpression {
  set_path : string;
  set_value : SetValueExpr
}.

Record RemoveUpdateExpression := mkRemoveUpdateExpression {
  remove_path : string
}.

Record AddUpdateExpression := mkAddUpdateExpression {
  add_path : string;
  add_value : AttributeValue
}.

(** [nodes/updateExpression.ts]: [UpdateExpression]. *)
Record UpdateExpression := mkUpdateExpression {
  setUpdateExpressions : list SetUpdateExpression;
  removeUpdateExpressions : list RemoveUpdateExpression;
  addUpdateExpressions : list AddUpdateExpression
}.

(** *** The put node *)

(** Modelled from the spec: the declaration of [PutNode]
    ([nodes/putNode.ts]) is missing from the sources.  Its fields are the
    parts of a put-style operation node the spec lists, under the names the
    builder reads and writes them by: the table identifier, the condition
    group ([conditionExpression], spread by the builder, so always present),
    the item payload and the return-values selector ([item] and
    [returnValues], written by their setters and absent before). *)
Module PutNode.
Record t := mk {
  table : TableNode.t;
  conditionExpression : ExpressionNode;
  item : option ItemNode.t;
  returnValues : option ReturnValuesNode.t
}.
End PutNode.

(** ** Expression builder *)

(** Modelled from the spec: [queryBuilders/expressionBuilder.ts] is missing
    from the sources.  The builder is an immutable wrapper of the
    accumulated group; [expression] (alias [andExpression]) appends a
    condition with connector AND, [orExpression] with connector OR; the
    argument shapes are the seven the put-item builder's overloads list. *)
Module ExpressionBuilder.

Record t := mk {
  node : ExpressionNode
}.

Inductive ExprArgs :=
  | ComparatorExprArg (key : string) (op : ComparatorOp) (value : AttributeValue)
  | AttributeFuncExprArg (key : string) (fn : AttributeFunctionName)
  | AttributeBeginsWithExprArg (key : string) (prefix : AttributeValue)
  | AttributeContainsExprArg (key : string) (value : AttributeValue)
  | AttributeBetweenExprArg (key : string) (lower upper : AttributeValue)
  | NotExprArg (key : string) (nested : ExprArgs)
  | BuilderExprArg (cb : t → t).

(** A brand-new empty builder scope, as handed to a callback. *)
Definition empty : t := mk [].

(** The condition node an argument tuple denotes, dispatched by shape. *)
Fixpoint nodeOfArgs (args : ExprArgs) : Node :=
  match args with
  | ComparatorExprArg key op value => Comparator key op value
  | AttributeFuncExprArg key fn => AttributeFunction key fn
  | AttributeBeginsWithExprArg key prefix => BeginsWith key prefix
  | AttributeContainsExprArg key value => Contains key value
  | AttributeBetweenExprArg key lower upper => Between key lower upper
  | NotExprArg _ nested => Not (nodeOfArgs nested)
  | BuilderExprArg cb => Group (node (cb empty))
  end.

Definition _expression (joinType : Connector) (args : ExprArgs) (b : t) : t :=
  mk (node b ++ [(joinType, nodeOfArgs args)]).

Definition expression (args : ExprArgs) (b : t) : t := _expression AND args b.
Definition andExpression (args : ExprArgs) (b : t) : t := _expression AND args b.
Definition orExpression (args : ExprArgs) (b : t) : t := _expression OR args b.

Definition _getNode (b : t) : ExpressionNode := node b.

End ExpressionBuilder.

(** ** Commands *)

(** The request shape handed to the transport client ([PutCommand] input for
    a put node).  Absent fields are [None]. *)
Module Command.
Record t := mk {
  TableName : string;
  ConditionExpression : option string;
  UpdateExpression : option string;
  ExpressionAttributeNames : option (gmap string string);
  ExpressionAttributeValues : option (gmap string AttributeValue);
  Item : option Item;
  ReturnValues : ReturnValuesOptions
}.
End Command.

Abbreviation PutCommand := Command.t.

(** The query compiler a builder is given: an object with a [compile]
    method from put nodes to put commands. *)
Module QueryCompiler.
Record t := mk {
  compile : PutNode.t → PutCommand
}.
End QueryCompiler.

(** The transport client a builder is given: [send] takes a command to the
    store's answer, of which the builder reads [Attributes]. *)
Module DynamoDBDocumentClient.
Record PutCommandOutput := mkOutput {
  Attributes : option Item
}.
Record t := mk {
  send : PutCommand → PutCommandOutput
}.
End DynamoDBDocumentClient.

(** ** The put-item query builder *)

(** [Extract<ReturnValuesOptions, ...>]: the members of the union that are
    among the listed literals. *)
Global Instance ReturnValuesOptions_eq_dec : EqDecision ReturnValuesOptions.
Proof. solve_decision. Defined.

Definition Extract (literals : list ReturnValuesOptions) : Type :=
  { o : ReturnValuesOptions | bool_decide (o ∈ literals) }.

(** [PutItemQueryBuilderProps]. *)
Module PutItemQueryBuilderProps.
Record t := mk {
  node : PutNode.t;
  ddbClient : DynamoDBDocumentClient.t;
  queryCompiler : QueryCompiler.t
}.
End PutItemQueryBuilderProps.

Module PutItemQueryBuilder.
Import ExpressionBuilder(ExprArgs).
Import PutItemQueryBuilderProps(ddbClient, queryCompiler).

(** The class: one private read-only field [#props]. *)
Record t := mk {
  props : PutItemQueryBuilderProps.t
}.

(** The getter [node]. *)
Definition node (this : t) : PutNode.t := PutItemQueryBuilderProps.node (props this).

Definition conditionExpression (args : ExprArgs) (this : t) : t :=
  let eB := ExpressionBuilder.mk
              (PutNode.conditionExpression (PutItemQueryBuilderProps.node (props this))) in
  let expressionNode := ExpressionBuilder._getNode (ExpressionBuilder.expression args eB) in
  mk {| PutItemQueryBuilderProps.node :=
          {| PutNode.table := PutNode.table (PutItemQueryBuilderProps.node (props this));
             PutNode.conditionExpression := expressionNode;
             PutNode.item := PutNode.item (PutItemQueryBuilderProps.node (props this));
             PutNode.returnValues :=
               PutNode.returnValues (PutItemQueryBuilderProps.node (props this)) |};
        ddbClient := ddbClient (props this);
        queryCompiler := queryCompiler (props this) |}.

Definition orConditionExpression (args : ExprArgs) (this : t) : t :=
  let eB := ExpressionBuilder.mk
              (PutNode.conditionExpression (PutItemQueryBuilderProps.node (props this))) in
  let expressionNode := ExpressionBuilder._getNode (ExpressionBuilder.orExpression args eB) in
  mk {| PutItemQueryBuilderProps.node :=
          {| PutNode.table := PutNode.table (PutItemQueryBuilderProps.node (props this));
             PutNode.conditionExpression := expressionNode;
             PutNode.item := PutNode.item (PutItemQueryBuilderProps.node (props this));
             PutNode.returnValues :=
               PutNode.returnValues (PutItemQueryBuilderProps.node (props this)) |};
        ddbClient := ddbClient (props this);
        queryCompiler := queryCompiler (props this) |}.

Definition item (item : Item) (this : t) : t :=
  mk {| PutItemQueryBuilderProps.node :=
          {| PutNode.table := PutNode.table (PutItemQueryBuilderProps.node (props this));
             PutNode.conditionExpression :=
               PutNode.conditionExpression (PutItemQueryBuilderProps.node (props this));
             PutNode.item := Some (ItemNode.mk item);
             PutNode.returnValues :=
               PutNode.returnValues (PutItemQueryBuilderProps.node (props this)) |};
        ddbClient := ddbClient (props this);
        queryCompiler := queryCompiler (props this) |}.

Definition returnValues (opt : Extract [NONE; ALL_OLD]) (this : t) : t :=
  mk {| PutItemQueryBuilderProps.node :=
          {| PutNode.table := PutNode.table (PutItemQueryBuilderProps.node (props this));
             PutNode.conditionExpression :=
               PutNode.conditionExpression (PutItemQueryBuilderProps.node (props this));
             PutNode.item := PutNode.item (PutItemQueryBuilderProps.node (props this));
             PutNode.returnValues := Some (ReturnValuesNode.mk (`opt)) |};
        ddbClient := ddbClient (props this);
        queryCompiler := queryCompiler (props this) |}.

Definition compile (this : t) : PutCommand :=
  QueryCompiler.compile (queryCompiler (props this))
    (PutItemQueryBuilderProps.node (props this)).

(** [execute]: the promise is taken at its settled value. *)
Definition execute (this : t) : option Item :=
  let putCommand := compile this in
  let data := DynamoDBDocumentClient.send (ddbClient (props this)) putCommand in
  DynamoDBDocumentClient.Attributes data.

(** The four modifying calls, as data, and their application. *)
Inductive Call :=
  | CallConditionExpression (args : ExprArgs)
  | CallOrConditionExpression (args : ExprArgs)
  | CallItem (item : Item)
  | CallReturnValues (opt : Extract [NONE; ALL_OLD]).

Definition call (c : Call) (this : t) : t :=
  match c with
  | CallConditionExpression args => conditionExpression args this
  | CallOrConditionExpression args => orConditionExpression args this
  | CallItem i => item i this
  | CallReturnValues opt => returnValues opt this
  end.

(** A chain [b.c1(...).c2(...)...]: the calls applied left to right. *)
Definition chain (cs : list Call) (this : t) : t :=
  foldl (λ b c, call c b) this cs.

End PutItemQueryBuilder.

(** ** Placeholder table *)

(** Modelled from the spec: the placeholder allocator lives in
    [queryCompiler.ts], which is missing from the sources.  One table
    per compilation: the two alias maps and one counter per kind.  A path
    segment seen before reuses its name alias; every value occurrence gets a
    fresh value alias. *)
Module PlaceholderTable.

Record t := mk {
  names : gmap string string;
  values : gmap string AttributeValue;
  nameCounter : nat;
  valueCounter : nat
}.

Definition empty : t := mk ∅ ∅ 0 0.

Definition nameAlias (i : nat) : string := "#n" +:+ pretty i.
Definition valueAlias (i : nat) : string := ":v" +:+ pretty i.

(** The alias already given to a segment, if any. *)
Definition findName (segment : string) (tbl : t) : option string :=
  fst <$> List.find (λ kv, String.eqb kv.2 segment) (map_to_list (names tbl)).

End PlaceholderTable.

(** Computations threaded through the table of one compilation. *)
Definition Alloc (A : Type) : Type := PlaceholderTable.t → A * PlaceholderTable.t.

Definition ret {A} (a : A) : Alloc A := λ tbl, (a, tbl).

Definition bind {A B} (m : Alloc A) (k : A → Alloc B) : Alloc B :=
  λ tbl, let (a, tbl') := m tbl in k a tbl'.

Notation "'let*' x ':=' m 'in' k" := (bind m (λ x, k))
  (at level 10, x name, m at level 100, k at level 200,
   format "'[v' 'let*'  x  :=  m  'in'  '/' k ']'").

Definition aliasName (segment : string) : Alloc string := λ tbl,
  match PlaceholderTable.findName segment tbl with
  | Some a => (a, tbl)
  | None =>
      let a := PlaceholderTable.nameAlias (PlaceholderTable.nameCounter tbl) in
      (a, PlaceholderTable.mk (<[a := segment]> (PlaceholderTable.names tbl))
            (PlaceholderTable.values tbl)
            (S (PlaceholderTable.nameCounter tbl))
            (PlaceholderTable.valueCounter tbl))
  end.

Definition aliasValue (v : AttributeValue) : Alloc string := λ tbl,
  let a := PlaceholderTable.valueAlias (PlaceholderTable.valueCounter tbl) in
  (a, PlaceholderTable.mk (PlaceholderTable.names tbl)
        (<[a := v]> (PlaceholderTable.values tbl))
        (PlaceholderTable.nameCounter tbl)
        (S (PlaceholderTable.valueCounter tbl))).

(** ** Query compiler *)

(** Modelled from the spec: [queryCompiler.ts] is missing from the sources.  What follows is the algorithm of the spec's "Query Compiler"
    section; the leaf templates are those of the store's expression
    grammar. *)

(** The pieces of a period-delimited path. *)
Fixpoint splitPath (path : string) : list string :=
  match path with
  | "" => [""]
  | String c rest =>
      if Ascii.eqb c "."%char then "" :: splitPath rest
      else match splitPath rest with
           | [] => [String c ""]
           | seg :: segs => String c seg :: segs
           end
  end.

(** A piece is an attribute name followed by its list indices, if any. *)
Fixpoint splitIndex (segment : string) : string * string :=
  match segment with
  | "" => ("", "")
  | String c rest =>
      if Ascii.eqb c "["%char then ("", segment)
      else let (name, idx) := splitIndex rest in (String c name, idx)
  end.

Definition compileSegment (segment : string) : Alloc string :=
  let (name, idx) := splitIndex segment in
  let* a := aliasName name in
  ret (a +:+ idx).

Fixpoint compileSegments (segments : list string) : Alloc (list string) :=
  match segments with
  | [] => ret []
  | seg :: rest =>
      let* s := compileSegment seg in
      let* ss := compileSegments rest in
      ret (s :: ss)
  end.

Fixpoint joinStrings (sep : string) (parts : list string) : string :=
  match parts with
  | [] => ""
  | [s] => s
  | s :: rest => s +:+ sep +:+ joinStrings sep rest
  end.

(** A path is rendered with each segment replaced by its name alias. *)
Definition compilePath (path : string) : Alloc string :=
  let* ss := compileSegments (splitPath path) in
  ret (joinStrings "." ss).

Definition ComparatorOp_text (op : ComparatorOp) : string :=
  match op with
  | CmpEq => "="
  | CmpNe => "<>"
  | CmpLt => "<"
  | CmpLe => "<="
  | CmpGt => ">"
  | CmpGe => ">="
  end.

Definition AttributeFunctionName_text (fn : AttributeFunctionName) : string :=
  match fn with
  | attribute_exists => "attribute_exists"
  | attribute_not_exists => "attribute_not_exists"
  end.

Definition Connector_text (c : Connector) : string :=
  match c with
  | AND => "AND"
  | OR => "OR"
  end.

(** The members of a group, each preceded by its connector keyword except
    the first, whose connector is ignored. *)
Definition compileMembers (compileNode : Node → Alloc string) :
    bool → ExpressionNode → Alloc string :=
  fix members (first : bool) (cs : ExpressionNode) : Alloc string :=
    match cs with
    | [] => ret ""
    | cn :: rest =>
        let* s := compileNode cn.2 in
        let* r := members false rest in
        ret ((if first then "" else " " +:+ Connector_text cn.1 +:+ " ") +:+ s +:+ r)
    end.

Fixpoint compileNode (n : Node) : Alloc string :=
  match n with
  | Comparator path op value =>
      let* p := compilePath path in
      let* v := aliasValue value in
      ret (p +:+ " " +:+ ComparatorOp_text op +:+ " " +:+ v)
  | AttributeFunction path fn =>
      let* p := compilePath path in
      ret (AttributeFunctionName_text fn +:+ "(" +:+ p +:+ ")")
  | BeginsWith path prefix =>
      let* p := compilePath path in
      let* v := aliasValue prefix in
      ret ("begins_with(" +:+ p +:+ ", " +:+ v +:+ ")")
  | Contains path value =>
      let* p := compilePath path in
      let* v := aliasValue value in
      ret ("contains(" +:+ p +:+ ", " +:+ v +:+ ")")
  | Between path lower upper =>
      let* p := compilePath path in
      let* l := aliasValue lower in
      let* u := aliasValue upper in
      ret (p +:+ " BETWEEN " +:+ l +:+ " AND " +:+ u)
  | Not child =>
      let* s := match child with
          | Group cs =>
              let* inner := compileMembers compileNode true cs in
              ret (if decide (1 < length cs) then "(" +:+ inner +:+ ")" else inner)
          | _ => compileNode child
          end in
      ret ("NOT " +:+ s)
  | Group cs =>
      let* inner := compileMembers compileNode true cs in
      ret ("(" +:+ inner +:+ ")")
  end.

(** The top-level sequence: joined by connectors, no parentheses. *)
Definition compileExpression (e : ExpressionNode) : Alloc string :=
  compileMembers compileNode true e.

(** *** Update clauses *)

Definition compileSetUpdateExpression (e : SetUpdateExpression) : Alloc string :=
  let* p := compilePath (set_path e) in
  match set_value e with
  | SetLiteral value =>
      let* v := aliasValue value in
      ret (p +:+ " = " +:+ v)
  | SetIncrement operand amount =>
      let* o := compilePath operand in
      let* v := aliasValue amount in
      ret (p +:+ " = " +:+ o +:+ " + " +:+ v)
  | SetDecrement operand amount =>
      let* o := compilePath operand in
      let* v := aliasValue amount in
      ret (p +:+ " = " +:+ o +:+ " - " +:+ v)
  | SetListAppend operand items =>
      let* o := compilePath operand in
      let* v := aliasValue items in
      ret (p +:+ " = list_append(" +:+ o +:+ ", " +:+ v +:+ ")")
  end.

Definition compileRemoveUpdateExpression (e : RemoveUpdateExpression) : Alloc string :=
  compilePath (remove_path e).

Definition compileAddUpdateExpression (e : AddUpdateExpression) : Alloc string :=
  let* p := compilePath (add_path e) in
  let* v := aliasValue (add_value e) in
  ret (p +:+ " " +:+ v).

Fixpoint compileEntries {A} (compileEntry : A → Alloc string) (entries : list A) :
    Alloc (list string) :=
  match entries with
  | [] => ret []
  | e :: rest =>
      let* s := compileEntry e in
      let* ss := compileEntries compileEntry rest in
      ret (s :: ss)
  end.

Inductive UpdateKeyword := SET | REMOVE | ADD.

Definition UpdateKeyword_text (k : UpdateKeyword) : string :=
  match k with
  | SET => "SET"
  | REMOVE => "REMOVE"
  | ADD => "ADD"
  end.

(** One clause per kind, in the order SET, REMOVE, ADD; a kind with no
    entries has no clause. *)
Definition clause (k : UpdateKeyword) (entries : list string) :
    list (UpdateKeyword * list string) :=
  match entries with
  | [] => []
  | _ => [(k, entries)]
  end.

Definition compileUpdateClauses (u : UpdateExpression) :
    Alloc (list (UpdateKeyword * list string)) :=
  let* sets := compileEntries compileSetUpdateExpression (setUpdateExpressions u) in
  let* removes := compileEntries compileRemoveUpdateExpression (removeUpdateExpressions u) in
  let* adds := compileEntries compileAddUpdateExpression (addUpdateExpressions u) in
  ret (clause SET sets ++ clause REMOVE removes ++ clause ADD adds).

Definition clauseText (c : UpdateKeyword * list string) : string :=
  UpdateKeyword_text c.1 +:+ " " +:+ joinStrings ", " c.2.

Definition compileUpdateExpression (u : UpdateExpression) : Alloc (option string) :=
  let* clauses := compileUpdateClauses u in
  ret (match clauses with
       | [] => None
       | _ => Some (joinStrings " " (clauseText <$> clauses))
       end).

(** *** Operations *)

(** The parts of an operation's node the compiler reads. *)
Module OperationNode.
Record t := mk {
  table : TableNode.t;
  conditionExpression : ExpressionNode;
  updateExpression : UpdateExpression;
  item : option ItemNode.t;
  returnValues : option ReturnValuesNode.t
}.
End OperationNode.

Definition noUpdate : UpdateExpression := mkUpdateExpression [] [] [].

Definition presentMap {V} (m : gmap string V) : option (gmap string V) :=
  if decide (size m = 0) then None else Some m.

(** The rendering pass with the table it is run on made explicit. *)
Definition compileWith (tbl : PlaceholderTable.t) (n : OperationNode.t) :
    Command.t * PlaceholderTable.t :=
  let '(texts, tbl') :=
    (let* cond := compileExpression (OperationNode.conditionExpression n) in
     let* upd := compileUpdateExpression (OperationNode.updateExpression n) in
     ret (cond, upd)) tbl in
  ({| Command.TableName := TableNode.table (OperationNode.table n);
      Command.ConditionExpression :=
        match OperationNode.conditionExpression n with
        | [] => None
        | _ => Some texts.1
        end;
      Command.UpdateExpression := texts.2;
      Command.ExpressionAttributeNames := presentMap (PlaceholderTable.names tbl');
      Command.ExpressionAttributeValues := presentMap (PlaceholderTable.values tbl');
      Command.Item := ItemNode.item <$> OperationNode.item n;
      Command.ReturnValues :=
        match OperationNode.returnValues n with
        | Some rv => ReturnValuesNode.option rv
        | None => NONE
        end |}, tbl').

(** One compile invocation: a table created for it, discarded after. *)
Definition compileOperation (n : OperationNode.t) : Command.t :=
  (compileWith PlaceholderTable.empty n).1.

Definition operationOfPutNode (n : PutNode.t) : OperationNode.t :=
  {| OperationNode.table := PutNode.table n;
     OperationNode.conditionExpression := PutNode.conditionExpression n;
     OperationNode.updateExpression := noUpdate;
     OperationNode.item := PutNode.item n;
     OperationNode.returnValues := PutNode.returnValues n |}.

Definition compilePutNode (n : PutNode.t) : PutCommand :=
  compileOperation (operationOfPutNode n).

(** The compiler object builders are created with. *)
Definition queryCompiler : QueryCompiler.t :=
  QueryCompiler.mk compilePutNode.

(** ** Compile invocations and the tables they own *)

(** Modelled from the spec: the compiler's source is missing.  The tables
    alive in a process are objects with an identity; a rendering pass
    reads and writes the table it is run on, by that identity.  A table
    left alive by one pass can therefore be rendered on again by a later
    one, which then goes on from the counters and maps the former left. *)
Module CompilerSession.

Abbreviation t := (gmap positive PlaceholderTable.t).

(** A new, empty table. *)
Definition createTable (s : t) : positive * t :=
  let id := fresh (dom s) in (id, <[id := PlaceholderTable.empty]> s).

(** A rendering pass on the table [id]; it fails on a table that is not
    alive. *)
Definition renderOn {A} (id : positive) (m : Alloc A) (s : t) : option (A * t) :=
  match s !! id with
  | Some tbl => let (a, tbl') := m tbl in Some (a, <[id := tbl']> s)
  | None => None
  end.

Definition discardTable (id : positive) (s : t) : t := delete id s.

End CompilerSession.

(** Modelled from the spec: one compile invocation in a session.  Its
    table is created, rendered on and discarded. *)
Definition compileInvocation (n : OperationNode.t) (s : CompilerSession.t) :
    option (Command.t * CompilerSession.t) :=
  let (id, s1) := CompilerSession.createTable s in
  match CompilerSession.renderOn id (λ tbl, compileWith tbl n) s1 with
  | Some (c, s2) => Some (c, CompilerSession.discardTable id s2)
  | None => None
  end.

(** Invocations one after the other, each in the session the former left. *)
Fixpoint compileInvocations (ns : list OperationNode.t) (s : CompilerSession.t) :
    option (list Command.t * CompilerSession.t) :=
  match ns with
  | [] => Some ([], s)
  | n :: ns =>
      match compileInvocation n s with
      | Some (c, s') =>
          match compileInvocations ns s' with
          | Some (cs, s'') => Some (c :: cs, s'')
          | None => None
          end
      | None => None
      end
  end.

(** ** Update builder calls *)

(** Modelled from the spec: the update-item builder is missing from the
    sources.  Its [set], [remove] and [add] calls append to the
    sequence of their kind. *)
Module UpdateBuilder.

Definition set (e : SetUpdateExpression) (u : UpdateExpression) : UpdateExpression :=
  {| setUpdateExpressions := setUpdateExpressions u ++ [e];
     removeUpdateExpressions := removeUpdateExpressions u;
     addUpdateExpressions := addUpdateExpressions u |}.

Definition remove (e : RemoveUpdateExpression) (u : UpdateExpression) : UpdateExpression :=
  {| setUpdateExpressions := setUpdateExpressions u;
     removeUpdateExpressions := removeUpdateExpressions u ++ [e];
     addUpdateExpressions := addUpdateExpressions u |}.

Definition add (e : AddUpdateExpression) (u : UpdateExpression) : UpdateExpression :=
  {| setUpdateExpressions := setUpdateExpressions u;
     removeUpdateExpressions := removeUpdateExpressions u;
     addUpdateExpressions := addUpdateExpressions u ++ [e] |}.

Inductive Call :=
  | CallSet (e : SetUpdateExpression)
  | CallRemove (e : RemoveUpdateExpression)
  | CallAdd (e : AddUpdateExpression).

Definition call (c : Call) (u : UpdateExpression) : UpdateExpression :=
  match c with
  | CallSet e => set e u
  | CallRemove e => remove e u
  | CallAdd e => add e u
  end.

Definition chain (cs : list Call) (u : UpdateExpression) : UpdateExpression :=
  foldl (λ u c, call c u) u cs.

End UpdateBuilder.

(** ** The await guard *)

(** What awaiting a value settles to. *)
Inductive Settled (A : Type) :=
  | Fulfilled (value : A)
  | Thrown (message : string).
Arguments Fulfilled {A} value.
Arguments Thrown {A} message.

(** Modelled from the spec: [util/preventAwait.ts] is missing from the
    sources.  The guard gives the class a [then] member that raises
    an error carrying the given message; awaiting an instance of a class
    with a [then] member calls it, awaiting any other object yields the
    object. *)
Module Class.
Record t := mk {
  then_message : option string
}.
Definition plain : t := mk None.
End Class.

Definition preventAwait (clazz : Class.t) (message : string) : Class.t :=
  Class.mk (Some message).

Definition awaitInstance {A} (clazz : Class.t) (instance : A) : Settled A :=
  match Class.then_message clazz with
  | Some message => Thrown message
  | None => Fulfilled instance
  end.

(** The call at the end of [putItemQueryBuilder.ts]. *)
Definition PutItemQueryBuilder_class : Class.t :=
  preventAwait Class.plain
    "Don't await PutQueryBuilder instances directly. To execute the query you need to call the `execute` method".

Definition await (b : PutItemQueryBuilder.t) : Settled PutItemQueryBuilder.t :=
  awaitInstance PutItemQueryBuilder_class b.

(** Whether [needle] occurs in [s]. *)
Fixpoint isPrefix (needle s : string) : bool :=
  match needle, s with
  | "", _ => true
  | String a needle', String b s' => Ascii.eqb a b && isPrefix needle' s'
  | _, _ => false
  end.

Fixpoint occursIn (needle s : string) : bool :=
  isPrefix needle s ||
  match s with
  | "" => false
  | String _ s' => occursIn needle s'
  end.

(** ** The builder over an object store *)

(** The same methods with the objects they read and create made explicit:
    every object literal, spread and [new] allocates a fresh object, every
    member access reads one.  An object is allocated once its members are
    known; within one expression the order in which its literals come to be
    is not observable.  The client, the compiler, item payloads and the
    members of an expression array are values no setter looks into.  The
    store holds the data objects only: the function members [compile] and
    [execute], arrow functions made anew with every instance, are left
    out of it, so the number of its objects is not the number of objects
    a call creates.  Used to state which objects a call reads, which it
    leaves as they were and which it shares. *)
Module Store.
Import ExpressionBuilder(ExprArgs).

Abbreviation loc := positive.

Inductive object :=
  | PutItemQueryBuilderObj (props : loc)
  | PutItemQueryBuilderPropsObj (node : loc)
      (ddbClient : DynamoDBDocumentClient.t) (queryCompiler : QueryCompiler.t)
  | PutNodeObj (table : loc) (conditionExpression : loc)
      (item : option loc) (returnValues : option loc)
  | TableNodeObj (table : string)
  | ExpressionNodeObj (expressions : loc)
  | ArrayObj (elements : list (Connector * Node))
  | ItemNodeObj (item : Item)
  | ReturnValuesNodeObj (option : ReturnValuesOptions)
  | ExpressionBuilderObj (props : loc)
  | ExpressionBuilderPropsObj (node : loc).

Abbreviation store := (gmap loc object).

(** Computations over the store; [None] is a failed member access. *)
Definition Heap (A : Type) : Type := store → option (A * store).

Global Instance Heap_ret : MRet Heap := λ A a σ, Some (a, σ).
Global Instance Heap_bind : MBind Heap := λ A B k m σ,
  match m σ with
  | Some (a, σ') => k a σ'
  | None => None
  end.

Definition fail {A} : Heap A := λ _, None.

(** An object literal or [new]: a fresh object. *)
Definition new (o : object) : Heap loc := λ σ,
  let l := fresh (dom σ) in Some (l, <[l := o]> σ).

Definition load (l : loc) : Heap object := λ σ,
  match σ !! l with
  | Some o => Some (o, σ)
  | None => None
  end.

(** *** Member accesses *)

Definition builderProps (this : loc) : Heap loc :=
  o ← load this;
  match o with PutItemQueryBuilderObj props => mret props | _ => fail end.

(** [this.#props.node], also the getter [node]. *)
Definition propsNode (this : loc) : Heap loc :=
  props ← builderProps this;
  o ← load props;
  match o with PutItemQueryBuilderPropsObj node _ _ => mret node | _ => fail end.

(** [{ ...this.#props, node }]. *)
Definition spreadPropsWithNode (this : loc) (node : loc) : Heap loc :=
  props ← builderProps this;
  o ← load props;
  match o with
  | PutItemQueryBuilderPropsObj _ ddbClient queryCompiler =>
      new (PutItemQueryBuilderPropsObj node ddbClient queryCompiler)
  | _ => fail
  end.

(** [{ ...this.#props.node.conditionExpression }]. *)
Definition spreadConditionExpression (this : loc) : Heap loc :=
  node ← propsNode this;
  o ← load node;
  match o with
  | PutNodeObj _ conditionExpression _ _ =>
      e ← load conditionExpression;
      match e with
      | ExpressionNodeObj expressions => new (ExpressionNodeObj expressions)
      | _ => fail
      end
  | _ => fail
  end.

(** *** Expression builder *)

(** Modelled from the spec: [queryBuilders/expressionBuilder.ts] is missing
    from the sources.  A call returns a new builder instance
    and mutates nothing: the extended sequence is a new array in a new
    node. *)
Definition newExpressionBuilder (node : loc) : Heap loc :=
  props ← new (ExpressionBuilderPropsObj node);
  new (ExpressionBuilderObj props).

Definition expressionBuilderNode (eB : loc) : Heap loc :=
  o ← load eB;
  match o with
  | ExpressionBuilderObj props =>
      p ← load props;
      match p with ExpressionBuilderPropsObj node => mret node | _ => fail end
  | _ => fail
  end.

Definition _expression (joinType : Connector) (args : ExprArgs) (eB : loc) : Heap loc :=
  node ← expressionBuilderNode eB;
  o ← load node;
  match o with
  | ExpressionNodeObj expressions =>
      a ← load expressions;
      match a with
      | ArrayObj elements =>
          expressions' ← new (ArrayObj (elements ++
                                [(joinType, ExpressionBuilder.nodeOfArgs args)]));
          node' ← new (ExpressionNodeObj expressions');
          newExpressionBuilder node'
      | _ => fail
      end
  | _ => fail
  end.

Definition expression (args : ExprArgs) (eB : loc) : Heap loc := _expression AND args eB.
Definition orExpression (args : ExprArgs) (eB : loc) : Heap loc := _expression OR args eB.
Definition _getNode (eB : loc) : Heap loc := expressionBuilderNode eB.

(** *** Put-item builder *)

Definition newPutItemQueryBuilder (props : loc) : Heap loc :=
  new (PutItemQueryBuilderObj props).

(** [{ ...this.#props.node, conditionExpression: expressionNode }]. *)
Definition spreadNodeWithConditionExpression (this expressionNode : loc) : Heap loc :=
  node ← propsNode this;
  o ← load node;
  match o with
  | PutNodeObj table _ item returnValues =>
      new (PutNodeObj table expressionNode item returnValues)
  | _ => fail
  end.

Definition conditionExpression (args : ExprArgs) (this : loc) : Heap loc :=
  copy ← spreadConditionExpression this;
  eB ← newExpressionBuilder copy;
  eB' ← expression args eB;
  expressionNode ← _getNode eB';
  node ← spreadNodeWithConditionExpression this expressionNode;
  props ← spreadPropsWithNode this node;
  newPutItemQueryBuilder props.

Definition orConditionExpression (args : ExprArgs) (this : loc) : Heap loc :=
  copy ← spreadConditionExpression this;
  eB ← newExpressionBuilder copy;
  eB' ← orExpression args eB;
  expressionNode ← _getNode eB';
  node ← spreadNodeWithConditionExpression this expressionNode;
  props ← spreadPropsWithNode this node;
  newPutItemQueryBuilder props.

Definition item (item : Item) (this : loc) : Heap loc :=
  old ← propsNode this;
  o ← load old;
  match o with
  | PutNodeObj table conditionExpression _ returnValues =>
      itemNode ← new (ItemNodeObj item);
      node ← new (PutNodeObj table conditionExpression (Some itemNode) returnValues);
      props ← spreadPropsWithNode this node;
      newPutItemQueryBuilder props
  | _ => fail
  end.

Definition returnValues (opt : Extract [NONE; ALL_OLD]) (this : loc) : Heap loc :=
  old ← propsNode this;
  o ← load old;
  match o with
  | PutNodeObj table conditionExpression item _ =>
      returnValuesNode ← new (ReturnValuesNodeObj (`opt));
      node ← new (PutNodeObj table conditionExpression item (Some returnValuesNode));
      props ← spreadPropsWithNode this node;
      newPutItemQueryBuilder props
  | _ => fail
  end.

Definition call (c : PutItemQueryBuilder.Call) (this : loc) : Heap loc :=
  match c with
  | PutItemQueryBuilder.CallConditionExpression args => conditionExpression args this
  | PutItemQueryBuilder.CallOrConditionExpression args => orConditionExpression args this
  | PutItemQueryBuilder.CallItem i => item i this
  | PutItemQueryBuilder.CallReturnValues opt => returnValues opt this
  end.

(** *** Reading a builder back as a value *)

Definition readTableNode (σ : store) (l : loc) : option TableNode.t :=
  match σ !! l with
  | Some (TableNodeObj table) => Some (TableNode.mk table)
  | _ => None
  end.

Definition readExpressionNode (σ : store) (l : loc) : option ExpressionNode :=
  match σ !! l with
  | Some (ExpressionNodeObj expressions) =>
      match σ !! expressions with
      | Some (ArrayObj elements) => Some elements
      | _ => None
      end
  | _ => None
  end.

Definition readItemNode (σ : store) (l : loc) : option ItemNode.t :=
  match σ !! l with
  | Some (ItemNodeObj item) => Some (ItemNode.mk item)
  | _ => None
  end.

Definition readReturnValuesNode (σ : store) (l : loc) : option ReturnValuesNode.t :=
  match σ !! l with
  | Some (ReturnValuesNodeObj o) => Some (ReturnValuesNode.mk o)
  | _ => None
  end.

(** An optional member: absent, or present and readable. *)
Definition readOptional {A} (read : loc → option A) (l : option loc) : option (option A) :=
  match l with
  | None => Some None
  | Some l => Some <$> read l
  end.

Definition readPutNode (σ : store) (l : loc) : option PutNode.t :=
  match σ !! l with
  | Some (PutNodeObj table conditionExpression item returnValues) =>
      t ← readTableNode σ table;
      c ← readExpressionNode σ conditionExpression;
      i ← readOptional (readItemNode σ) item;
      r ← readOptional (readReturnValuesNode σ) returnValues;
      Some (PutNode.mk t c i r)
  | _ => None
  end.

Definition readProps (σ : store) (l : loc) : option PutItemQueryBuilderProps.t :=
  match σ !! l with
  | Some (PutItemQueryBuilderPropsObj node ddbClient queryCompiler) =>
      n ← readPutNode σ node;
      Some (PutItemQueryBuilderProps.mk n ddbClient queryCompiler)
  | _ => None
  end.

Definition readBuilder (σ : store) (l : loc) : option PutItemQueryBuilder.t :=
  match σ !! l with
  | Some (PutItemQueryBuilderObj props) => PutItemQueryBuilder.mk <$> readProps σ props
  | _ => None
  end.

Definition readExpressionBuilder (σ : store) (l : loc) : option ExpressionBuilder.t :=
  match σ !! l with
  | Some (ExpressionBuilderObj props) =>
      match σ !! props with
      | Some (ExpressionBuilderPropsObj node) =>
          ExpressionBuilder.mk <$> readExpressionNode σ node
      | _ => None
      end
  | _ => None
  end.

(** [compile]: the compiler object of the props is called with the node
    object of the props.  Modelled from the spec: the compiler
    ([queryCompiler.ts]) is missing from the sources; it is a pure function
    of the node it is handed, so the call reads the node and creates
    nothing in the store. *)
Definition compile (this : loc) : Heap PutCommand :=
  props ← builderProps this;
  o ← load props;
  match o with
  | PutItemQueryBuilderPropsObj node _ queryCompiler =>
      λ σ, n ← readPutNode σ node; Some (QueryCompiler.compile queryCompiler n, σ)
  | _ => fail
  end.

End Store.

(** ** Counting literal occurrences *)

(** The number of literal values a condition node references. *)
Fixpoint countValues (n : Node) : nat :=
  match n with
  | Comparator _ _ _ => 1
  | AttributeFunction _ _ => 0
  | BeginsWith _ _ => 1
  | Contains _ _ => 1
  | Between _ _ _ => 2
  | Not child => countValues child
  | Group cs => sum_list ((λ cn, countValues cn.2) <$> cs)
  end.

Definition countExpressionValues (e : ExpressionNode) : nat :=
  sum_list ((λ cn, countValues cn.2) <$> e).

Definition countUpdateValues (u : UpdateExpression) : nat :=
  length (setUpdateExpressions u) + length (addUpdateExpressions u).

(** Literal occurrences the compiler aliases: those of the condition and of
    the update entries (the item payload is passed verbatim). *)
Definition countOperationValues (n : OperationNode.t) : nat :=
  countExpressionValues (OperationNode.conditionExpression n) +
  countUpdateValues (OperationNode.updateExpression n).

(** The aliases of a compiled map, absent counting as none. *)
Definition aliases {V} (m : option (gmap string V)) : gset string :=
  match m with
  | Some m => dom m
  | None => ∅
  end.

(** The first [k] aliases of a numbering. *)
Definition firstAliases (alias : nat → string) (k : nat) : gset string :=
  list_to_set (alias <$> seq 0 k).

(** ** Auxiliary definitions of the statements *)

(** What the builder relies on of the compiler it is given, for the
    return-values field: the command carries the selector of the node, and
    NONE when the node has none. *)
Definition rendersReturnValues (qc : QueryCompiler.t) : Prop :=
  ∀ n : PutNode.t,
    Command.ReturnValues (QueryCompiler.compile qc n) =
      match PutNode.returnValues n with
      | Some rv => ReturnValuesNode.option rv
      | None => NONE
      end.

(** [returnValues] as it runs: the parameter's type is erased and the body
    has no guard, so the call stores whatever selector it is handed.  The
    method of the class is this one at the two selectors its signature
    admits. *)
Definition returnValues_erased (option : ReturnValuesOptions)
    (this : PutItemQueryBuilder.t) : PutItemQueryBuilder.t :=
  PutItemQueryBuilder.mk
    {| PutItemQueryBuilderProps.node :=
         {| PutNode.table :=
              PutNode.table (PutItemQueryBuilderProps.node (PutItemQueryBuilder.props this));
            PutNode.conditionExpression :=
              PutNode.conditionExpression
                (PutItemQueryBuilderProps.node (PutItemQueryBuilder.props this));
            PutNode.item :=
              PutNode.item (PutItemQueryBuilderProps.node (PutItemQueryBuilder.props this));
            PutNode.returnValues := Some (ReturnValuesNode.mk option) |};
       PutItemQueryBuilderProps.ddbClient :=
         PutItemQueryBuilderProps.ddbClient (PutItemQueryBuilder.props this);
       PutItemQueryBuilderProps.queryCompiler :=
         PutItemQueryBuilderProps.queryCompiler (PutItemQueryBuilder.props this) |}.

(** The two arguments [returnValues] accepts. *)
Definition optNONE : Extract [NONE; ALL_OLD] := NONE ↾ I.
Definition optALL_OLD : Extract [NONE; ALL_OLD] := ALL_OLD ↾ I.

(** A call other than [returnValues]. *)
Definition notReturnValues (c : PutItemQueryBuilder.Call) : Prop :=
  match c with
  | PutItemQueryBuilder.CallReturnValues _ => False
  | _ => True
  end.

(** A client that answers every command with no attributes, and a builder
    for table [myTable] as the query creator would hand it out. *)
Definition silentClient : DynamoDBDocumentClient.t :=
  DynamoDBDocumentClient.mk (λ _, DynamoDBDocumentClient.mkOutput None).

Definition myTableBuilder : PutItemQueryBuilder.t :=
  PutItemQueryBuilder.mk
    {| PutItemQueryBuilderProps.node :=
         {| PutNode.table := TableNode.mk "myTable";
            PutNode.conditionExpression := [];
            PutNode.item := None;
            PutNode.returnValues := None |};
       PutItemQueryBuilderProps.ddbClient := silentClient;
       PutItemQueryBuilderProps.queryCompiler := queryCompiler |}.

(** The return-values option a builder's node holds, if any, is NONE or
    ALL_OLD. *)
Definition storedOptionInSubset (b : PutItemQueryBuilder.t) : Prop :=
  ∀ rv, PutNode.returnValues (PutItemQueryBuilder.node b) = Some rv →
        ReturnValuesNode.option rv = NONE ∨ ReturnValuesNode.option rv = ALL_OLD.

(** A builder constructed on a node that already holds ALL_NEW. *)
Definition allNewBuilder : PutItemQueryBuilder.t :=
  PutItemQueryBuilder.mk
    {| PutItemQueryBuilderProps.node :=
         {| PutNode.table := TableNode.mk "myTable";
            PutNode.conditionExpression := [];
            PutNode.item := None;
            PutNode.returnValues := Some (ReturnValuesNode.mk ALL_NEW) |};
       PutItemQueryBuilderProps.ddbClient := silentClient;
       PutItemQueryBuilderProps.queryCompiler := queryCompiler |}.

(** The entries of one kind among the calls of a chain, in call order. *)
Definition setEntries (cs : list UpdateBuilder.Call) : list SetUpdateExpression :=
  omap (λ c, match c with UpdateBuilder.CallSet e => Some e | _ => None end) cs.

Definition removeEntries (cs : list UpdateBuilder.Call) : list RemoveUpdateExpression :=
  omap (λ c, match c with UpdateBuilder.CallRemove e => Some e | _ => None end) cs.

Definition addEntries (cs : list UpdateBuilder.Call) : list AddUpdateExpression :=
  omap (λ c, match c with UpdateBuilder.CallAdd e => Some e | _ => None end) cs.

(** The spec's update scenario: [set("count", "+", 1)], then
    [remove("temp")]. *)
Definition countThenTemp : UpdateExpression :=
  UpdateBuilder.chain
    [UpdateBuilder.CallSet
       (mkSetUpdateExpression "count" (SetIncrement "count" (AVNumber 1)));
     UpdateBuilder.CallRemove (mkRemoveUpdateExpression "temp")]
    noUpdate.

(** The number of entries the update node holds for a keyword. *)
Definition entriesOf (k : UpdateKeyword) (u : UpdateExpression) : nat :=
  match k with
  | SET => length (setUpdateExpressions u)
  | REMOVE => length (removeUpdateExpressions u)
  | ADD => length (addUpdateExpressions u)
  end.

(** A table whose aliases are exactly the first ones of each numbering. *)
Definition numbered (tbl : PlaceholderTable.t) : Prop :=
  dom (PlaceholderTable.values tbl)
    = firstAliases PlaceholderTable.valueAlias (PlaceholderTable.valueCounter tbl) ∧
  dom (PlaceholderTable.names tbl)
    = firstAliases PlaceholderTable.nameAlias (PlaceholderTable.nameCounter tbl).

(** A computation that keeps a table numbered and takes [k] value aliases. *)
Definition allocates {A} (m : Alloc A) (k : nat) : Prop :=
  ∀ tbl, numbered tbl →
    numbered (m tbl).2 ∧
    PlaceholderTable.valueCounter (m tbl).2 = PlaceholderTable.valueCounter tbl + k.

(** Two occurrences of the same literal. *)
Definition twiceTheSameValue : OperationNode.t :=
  OperationNode.mk (TableNode.mk "myTable")
    [(AND, Comparator "a" CmpEq (AVString "x"));
     (AND, Comparator "b" CmpEq (AVString "x"))]
    noUpdate None None.

Definition twiceTheSameValue_values : gmap string AttributeValue :=
  {[ ":v0" := AVString "x"; ":v1" := AVString "x" ]}.

(** A store holding the builder for table [myTable] at location 6. *)
Definition myTableStore : Store.store :=
  {[ 1%positive := Store.TableNodeObj "myTable";
     2%positive := Store.ArrayObj [];
     3%positive := Store.ExpressionNodeObj 2;
     4%positive := Store.PutNodeObj 1 3 None None;
     5%positive := Store.PutItemQueryBuilderPropsObj 4 silentClient queryCompiler;
     6%positive := Store.PutItemQueryBuilderObj 5 ]}.

(** The spec's nested-group scenario, [A AND (B OR C)], and a node that
    uses a nested path and its first segment again. *)
Definition nestedGroup : OperationNode.t :=
  OperationNode.mk (TableNode.mk "myTable")
    [(AND, Comparator "a" CmpEq (AVNumber 1));
     (AND, Group [(AND, Comparator "b" CmpEq (AVNumber 2));
                  (OR, Comparator "c" CmpEq (AVNumber 3))])]
    noUpdate None None.

Definition nestedPath : OperationNode.t :=
  OperationNode.mk (TableNode.mk "myTable")
    [(AND, Comparator "a.b[0]" CmpLt (AVNumber 1));
     (OR, Not (AttributeFunction "a" attribute_exists))]
    noUpdate None None.

(** ** Chains of calls *)

(** The payload of the last [item] call of a chain, if any. *)
Definition lastItem (cs : list PutItemQueryBuilder.Call) : option Item :=
  last (omap (λ c, match c with
                   | PutItemQueryBuilder.CallItem i => Some i
                   | _ => None
                   end) cs).

(** The selector of the last [returnValues] call of a chain, if any. *)
Definition lastReturnValues (cs : list PutItemQueryBuilder.Call) :
    option ReturnValuesOptions :=
  last (omap (λ c, match c with
                   | PutItemQueryBuilder.CallReturnValues opt => Some (`opt)
                   | _ => None
                   end) cs).

Definition isConditionCall (c : PutItemQueryBuilder.Call) : bool :=
  match c with
  | PutItemQueryBuilder.CallConditionExpression _
  | PutItemQueryBuilder.CallOrConditionExpression _ => true
  | _ => false
  end.

(** What a call of a chain asks of the expression builder: [expression] for
    [conditionExpression], [orExpression] for [orConditionExpression],
    nothing for the other two. *)
Definition conditionCall (c : PutItemQueryBuilder.Call) (eB : ExpressionBuilder.t) :
    ExpressionBuilder.t :=
  match c with
  | PutItemQueryBuilder.CallConditionExpression args => ExpressionBuilder.expression args eB
  | PutItemQueryBuilder.CallOrConditionExpression args => ExpressionBuilder.orExpression args eB
  | _ => eB
  end.

(** A chain over the object store: each call is made on the builder the
    previous one returned; the result is every builder the chain returned,
    in call order. *)
Fixpoint storeChain (cs : list PutItemQueryBuilder.Call) (this : Store.loc) :
    Store.Heap (list Store.loc) :=
  match cs with
  | [] => mret []
  | c :: cs' =>
      r ← Store.call c this;
      rs ← storeChain cs' r;
      mret (r :: rs)
  end.

(** Two calls on one receiver, as when a base builder is used as a template:
    the second call is made on the receiver, not on the first result. *)
Definition storeBranch (c1 c2 : PutItemQueryBuilder.Call) (this : Store.loc) :
    Store.Heap (Store.loc * Store.loc) :=
  r1 ← Store.call c1 this;
  r2 ← Store.call c2 this;
  mret (r1, r2).

(** The node object a builder object holds, with its members. *)
Definition nodeObject (σ : Store.store) (this : Store.loc) : option Store.object :=
  match Store.propsNode this σ with
  | Some (n, _) => σ !! n
  | None => None
  end.

(** * Properties *)

(** ** The node model *)

(** Structural induction that also reaches the members of a group. *)
Section Node_ind_nested.
Variable P : Node → Prop.
Hypothesis HComparator : ∀ p o v, P (Comparator p o v).
Hypothesis HAttributeFunction : ∀ p f, P (AttributeFunction p f).
Hypothesis HBeginsWith : ∀ p v, P (BeginsWith p v).
Hypothesis HContains : ∀ p v, P (Contains p v).
Hypothesis HBetween : ∀ p l u, P (Between p l u).
Hypothesis HNot : ∀ c, P c → P (Not c).
Hypothesis HGroup : ∀ cs, Forall (λ cn, P cn.2) cs → P (Group cs).

Lemma Node_ind_nested (n : Node) : P n.
Proof.
  revert n. fix IH 1. intros [p o v|p f|p v|p v|p l u|c|cs].
  - apply HComparator.
  - apply HAttributeFunction.
  - apply HBeginsWith.
  - apply HContains.
  - apply HBetween.
  - apply HNot, IH.
  - apply HGroup. induction cs as [|[c n] cs IHcs]; constructor.
    + apply IH.
    + exact IHcs.
Qed.
End Node_ind_nested.

(** ** The spec's scenarios *)

Example scenario_condition :
  let c := compileOperation
    {| OperationNode.table := TableNode.mk "myTable";
       OperationNode.conditionExpression :=
         [(AND, Comparator "userId" CmpEq (AVString "abc"));
          (OR, Comparator "age" CmpGt (AVNumber 21))];
       OperationNode.updateExpression := noUpdate;
       OperationNode.item := None;
       OperationNode.returnValues := None |} in
  Command.ConditionExpression c = Some "#n0 = :v0 OR #n1 > :v1" ∧
  Command.ExpressionAttributeNames c = Some {[ "#n0" := "userId"; "#n1" := "age" ]} ∧
  Command.ExpressionAttributeValues c =
    Some {[ ":v0" := AVString "abc"; ":v1" := AVNumber 21 ]}.
Proof. vm_compute. split_and!; reflexivity. Qed.

Example scenario_update :
  (compileUpdateExpression
     (mkUpdateExpression
        [mkSetUpdateExpression "count" (SetIncrement "count" (AVNumber 1))]
        [mkRemoveUpdateExpression "temp"] [])
     PlaceholderTable.empty).1
  = Some "SET #n0 = #n0 + :v0 REMOVE #n1".
Proof. vm_compute. reflexivity. Qed.

Example scenario_nested_group :
  Command.ConditionExpression (compileOperation nestedGroup)
  = Some "#n0 = :v0 AND (#n1 = :v1 OR #n2 = :v2)".
Proof. vm_compute. reflexivity. Qed.

Example scenario_nested_path :
  Command.ConditionExpression (compileOperation nestedPath)
    = Some "#n0.#n1[0] < :v0 OR NOT attribute_exists(#n0)" ∧
  Command.ExpressionAttributeNames (compileOperation nestedPath)
    = Some {[ "#n0" := "a"; "#n1" := "b" ]}.
Proof. vm_compute. split; reflexivity. Qed.

(** Were the table of one compile handed to the next, the second command
    would differ: its value aliases would go on from where the first
    stopped. *)
Example shared_table_renumbers :
  Command.ConditionExpression
    (compileWith (compileWith PlaceholderTable.empty twiceTheSameValue).2
       twiceTheSameValue).1
  = Some "#n0 = :v2 AND #n1 = :v3".
Proof. vm_compute. reflexivity. Qed.

(** ** Setters of the put-item builder *)

Section PutItemQueryBuilder_facts.
Import PutItemQueryBuilder.
Import ExpressionBuilder(ExprArgs, nodeOfArgs).

Lemma chain_app cs1 cs2 (this : t) :
  chain (cs1 ++ cs2) this = chain cs2 (chain cs1 this).
Proof. apply foldl_app. Qed.

Lemma chain_snoc cs c (this : t) :
  chain (cs ++ [c]) this = call c (chain cs this).
Proof. by rewrite chain_app. Qed.

(** No call replaces the client or the compiler. *)
Lemma call_collaborators c (this : t) :
  PutItemQueryBuilderProps.ddbClient (props (call c this))
    = PutItemQueryBuilderProps.ddbClient (props this) ∧
  PutItemQueryBuilderProps.queryCompiler (props (call c this))
    = PutItemQueryBuilderProps.queryCompiler (props this).
Proof. by destruct c. Qed.

Lemma chain_queryCompiler cs (this : t) :
  PutItemQueryBuilderProps.queryCompiler (props (chain cs this))
    = PutItemQueryBuilderProps.queryCompiler (props this).
Proof.
  induction cs as [|c cs IH] using rev_ind; [done|].
  rewrite chain_snoc. by rewrite (proj2 (call_collaborators _ _)).
Qed.

End PutItemQueryBuilder_facts.

(** C10. Each setter of the put-item builder writes one field of the node:
    [item] only [item], [returnValues] only [returnValues],
    [conditionExpression] and [orConditionExpression] only
    [conditionExpression]; the table and the other fields of the node, and
    the client and compiler of the props, are those of the receiver. *)
Theorem setters_write_one_field (this : PutItemQueryBuilder.t) :
  let n := PutItemQueryBuilder.node this in
  (∀ i,
     let n' := PutItemQueryBuilder.node (PutItemQueryBuilder.item i this) in
     PutNode.item n' = Some (ItemNode.mk i) ∧
     PutNode.table n' = PutNode.table n ∧
     PutNode.conditionExpression n' = PutNode.conditionExpression n ∧
     PutNode.returnValues n' = PutNode.returnValues n) ∧
  (∀ opt,
     let n' := PutItemQueryBuilder.node (PutItemQueryBuilder.returnValues opt this) in
     PutNode.returnValues n' = Some (ReturnValuesNode.mk (`opt)) ∧
     PutNode.table n' = PutNode.table n ∧
     PutNode.conditionExpression n' = PutNode.conditionExpression n ∧
     PutNode.item n' = PutNode.item n) ∧
  (∀ args,
     let n' := PutItemQueryBuilder.node (PutItemQueryBuilder.conditionExpression args this) in
     PutNode.table n' = PutNode.table n ∧
     PutNode.item n' = PutNode.item n ∧
     PutNode.returnValues n' = PutNode.returnValues n) ∧
  (∀ args,
     let n' := PutItemQueryBuilder.node (PutItemQueryBuilder.orConditionExpression args this) in
     PutNode.table n' = PutNode.table n ∧
     PutNode.item n' = PutNode.item n ∧
     PutNode.returnValues n' = PutNode.returnValues n) ∧
  (∀ c,
     PutItemQueryBuilderProps.ddbClient (PutItemQueryBuilder.props (PutItemQueryBuilder.call c this))
       = PutItemQueryBuilderProps.ddbClient (PutItemQueryBuilder.props this) ∧
     PutItemQueryBuilderProps.queryCompiler (PutItemQueryBuilder.props (PutItemQueryBuilder.call c this))
       = PutItemQueryBuilderProps.queryCompiler (PutItemQueryBuilder.props this)).
Proof.
  destruct this as [[[tbl cond it rv] client qc]]. cbn.
  split_and!; try done; intros c; by destruct c.
Qed.

(** ** Fields of a compiled command *)

Lemma compileWith_fields tbl (n : OperationNode.t) :
  let c := (compileWith tbl n).1 in
  Command.TableName c = TableNode.table (OperationNode.table n) ∧
  Command.Item c = ItemNode.item <$> OperationNode.item n ∧
  Command.ReturnValues c = match OperationNode.returnValues n with
                   | Some rv => ReturnValuesNode.option rv
                   | None => NONE
                   end.
Proof.
  unfold compileWith.
  by destruct (bind _ _ tbl) as [texts tbl'].
Qed.

Lemma compilePutNode_ReturnValues (n : PutNode.t) :
  Command.ReturnValues (compilePutNode n) =
    match PutNode.returnValues n with
    | Some rv => ReturnValuesNode.option rv
    | None => NONE
    end.
Proof. apply (compileWith_fields PlaceholderTable.empty (operationOfPutNode n)). Qed.

Lemma compileWith_texts tbl (n : OperationNode.t) :
  let c := (compileWith tbl n).1 in
  let cond := compileExpression (OperationNode.conditionExpression n) tbl in
  Command.ConditionExpression c = match OperationNode.conditionExpression n with
                          | [] => None
                          | _ => Some cond.1
                          end ∧
  Command.UpdateExpression c =
    (compileUpdateExpression (OperationNode.updateExpression n) cond.2).1.
Proof.
  unfold compileWith, bind.
  destruct (compileExpression _ tbl) as [cond tbl1]. cbn.
  by destruct (compileUpdateExpression _ tbl1) as [upd tbl2].
Qed.

(** The connector of the first member of a sequence is not rendered. *)
Lemma compileExpression_first_connector c c' n rest :
  compileExpression ((c, n) :: rest) = compileExpression ((c', n) :: rest).
Proof. reflexivity. Qed.

(** ** Condition calls *)

(** C5. On every builder and for every argument shape, [conditionExpression]
    appends the condition the arguments denote to the current group with
    connector AND and [orConditionExpression] appends it with connector OR;
    on an empty group the two calls compile to the same command: the first
    member's connector has no effect. *)
Theorem conditionExpression_appends
    (this : PutItemQueryBuilder.t) (args : ExpressionBuilder.ExprArgs) :
  PutNode.conditionExpression
    (PutItemQueryBuilder.node (PutItemQueryBuilder.conditionExpression args this))
  = PutNode.conditionExpression (PutItemQueryBuilder.node this)
      ++ [(AND, ExpressionBuilder.nodeOfArgs args)] ∧
  PutNode.conditionExpression
    (PutItemQueryBuilder.node (PutItemQueryBuilder.orConditionExpression args this))
  = PutNode.conditionExpression (PutItemQueryBuilder.node this)
      ++ [(OR, ExpressionBuilder.nodeOfArgs args)] ∧
  (PutNode.conditionExpression (PutItemQueryBuilder.node this) = [] →
   compilePutNode
     (PutItemQueryBuilder.node (PutItemQueryBuilder.conditionExpression args this))
   = compilePutNode
       (PutItemQueryBuilder.node (PutItemQueryBuilder.orConditionExpression args this))).
Proof.
  destruct this as [[[tbl cond it rv] client qc]]. cbn.
  split_and!; [done..|]. by intros ->.
Qed.

Lemma conditionExpression_appends_witness :
  PutNode.conditionExpression (PutItemQueryBuilder.node myTableBuilder) = [] ∧
  compilePutNode
    (PutItemQueryBuilder.node
       (PutItemQueryBuilder.conditionExpression
          (ExpressionBuilder.ComparatorExprArg "userId" CmpEq (AVString "abc"))
          myTableBuilder))
  = compilePutNode
      (PutItemQueryBuilder.node
         (PutItemQueryBuilder.orConditionExpression
            (ExpressionBuilder.ComparatorExprArg "userId" CmpEq (AVString "abc"))
            myTableBuilder)).
Proof.
  split; [reflexivity|].
  apply (conditionExpression_appends myTableBuilder
           (ExpressionBuilder.ComparatorExprArg "userId" CmpEq (AVString "abc"))).
  reflexivity.
Defined.

(** ** Return values *)

Lemma chain_returnValues_untouched cs (this : PutItemQueryBuilder.t) :
  Forall notReturnValues cs →
  PutNode.returnValues (PutItemQueryBuilder.node (PutItemQueryBuilder.chain cs this))
  = PutNode.returnValues (PutItemQueryBuilder.node this).
Proof.
  induction cs as [|c cs IH] using rev_ind; [done|].
  rewrite Forall_app, Forall_singleton. intros [Hcs Hc].
  rewrite chain_snoc, <- (IH Hcs). by destruct c.
Qed.

(** C2. For each of the five selectors, calling [returnValues] with that
    selector and compiling yields a command whose [ReturnValues] is the
    selector verbatim: the body stores the selector it is handed without a
    guard, so this holds of the call as it runs for all five, and of the
    typed method whenever it is called with the selector; a builder on which
    [returnValues] was never called compiles to [ReturnValues] NONE.  All
    this for a builder whose compiler renders the selector of the node it is
    handed, as the repository's compiler does for each of the five. *)
Theorem returnValues_roundtrip :
  (∀ (s : ReturnValuesOptions) (this : PutItemQueryBuilder.t),
     rendersReturnValues
       (PutItemQueryBuilderProps.queryCompiler (PutItemQueryBuilder.props this)) →
     Command.ReturnValues (PutItemQueryBuilder.compile (returnValues_erased s this)) = s) ∧
  (∀ (opt : Extract [NONE; ALL_OLD]) (this : PutItemQueryBuilder.t),
     PutItemQueryBuilder.returnValues opt this = returnValues_erased (`opt) this) ∧
  (∀ (s : ReturnValuesOptions) (opt : Extract [NONE; ALL_OLD])
     (this : PutItemQueryBuilder.t),
     `opt = s →
     rendersReturnValues
       (PutItemQueryBuilderProps.queryCompiler (PutItemQueryBuilder.props this)) →
     Command.ReturnValues
       (PutItemQueryBuilder.compile (PutItemQueryBuilder.returnValues opt this))
     = s) ∧
  (∀ (this : PutItemQueryBuilder.t) (cs : list PutItemQueryBuilder.Call),
     rendersReturnValues
       (PutItemQueryBuilderProps.queryCompiler (PutItemQueryBuilder.props this)) →
     PutNode.returnValues (PutItemQueryBuilder.node this) = None →
     Forall notReturnValues cs →
     Command.ReturnValues
       (PutItemQueryBuilder.compile (PutItemQueryBuilder.chain cs this)) = NONE) ∧
  rendersReturnValues queryCompiler ∧
  (∀ (s : ReturnValuesOptions) (n : PutNode.t),
     PutNode.returnValues n = Some (ReturnValuesNode.mk s) →
     Command.ReturnValues (compilePutNode n) = s).
Proof.
  split_and!.
  - intros s this Hqc. unfold PutItemQueryBuilder.compile. cbn. by rewrite Hqc.
  - done.
  - intros s opt this <- Hqc. unfold PutItemQueryBuilder.compile. cbn. by rewrite Hqc.
  - intros this cs Hqc Hnone Hcs. unfold PutItemQueryBuilder.compile.
    rewrite chain_queryCompiler, Hqc.
    fold (PutItemQueryBuilder.node (PutItemQueryBuilder.chain cs this)).
    by rewrite chain_returnValues_untouched, Hnone.
  - intros n. apply compilePutNode_ReturnValues.
  - intros s n Hn. by rewrite compilePutNode_ReturnValues, Hn.
Qed.

Lemma returnValues_roundtrip_witness :
  rendersReturnValues queryCompiler ∧
  Command.ReturnValues
    (PutItemQueryBuilder.compile (returnValues_erased UPDATED_OLD myTableBuilder))
    = UPDATED_OLD ∧
  Command.ReturnValues
    (PutItemQueryBuilder.compile
       (PutItemQueryBuilder.returnValues optALL_OLD myTableBuilder)) = ALL_OLD ∧
  Command.ReturnValues
    (PutItemQueryBuilder.compile
       (PutItemQueryBuilder.chain
          [PutItemQueryBuilder.CallItem {[ "userId" := AVString "333" ]};
           PutItemQueryBuilder.CallConditionExpression
             (ExpressionBuilder.AttributeFuncExprArg "userId" attribute_not_exists)]
          myTableBuilder)) = NONE ∧
  Command.ReturnValues
    (compilePutNode
       (PutNode.mk (TableNode.mk "myTable") [] None
          (Some (ReturnValuesNode.mk UPDATED_NEW)))) = UPDATED_NEW.
Proof.
  destruct returnValues_roundtrip as (H1 & _ & H3 & H4 & H5 & H6).
  split_and!.
  - exact H5.
  - apply (H1 UPDATED_OLD myTableBuilder). exact H5.
  - apply (H3 ALL_OLD optALL_OLD myTableBuilder); [reflexivity|exact H5].
  - apply H4; [exact H5|reflexivity|].
    repeat constructor.
  - apply H6. reflexivity.
Defined.

(** ** The selectors of the put-item builder *)

(** C9, as stated, fails for a builder constructed on such a node: the
    node's field ranges over the five selectors, only the setter's argument
    is restricted. *)
Lemma storedOptionInSubset_not_every_builder :
  ¬ (∀ b : PutItemQueryBuilder.t, storedOptionInSubset b).
Proof.
  intros H. destruct (H allNewBuilder (ReturnValuesNode.mk ALL_NEW) eq_refl); discriminate.
Qed.

Lemma call_storedOptionInSubset c (this : PutItemQueryBuilder.t) :
  storedOptionInSubset this → storedOptionInSubset (PutItemQueryBuilder.call c this).
Proof.
  destruct c as [args|args|i|[o Ho]]; try done.
  intros _ rv [= <-]. cbn.
  destruct o; try done; auto.
Qed.

(** C9 (amended). The put-item builder's [returnValues] accepts exactly the
    selectors NONE and ALL_OLD, a strict subset of the five selectors of the
    node model; the option a [returnValues] call stores is one of these two,
    and a builder whose node holds no option or one of these two keeps that
    through every chain of modifying calls. *)
Theorem returnValues_accepts_subset :
  (∀ opt : Extract [NONE; ALL_OLD], `opt = NONE ∨ `opt = ALL_OLD) ∧
  (∀ s : ReturnValuesOptions,
     s = NONE ∨ s = ALL_OLD → ∃ opt : Extract [NONE; ALL_OLD], `opt = s) ∧
  (∀ s : ReturnValuesOptions,
     s = UPDATED_OLD ∨ s = ALL_NEW ∨ s = UPDATED_NEW →
     ¬ ∃ opt : Extract [NONE; ALL_OLD], `opt = s) ∧
  (∀ (opt : Extract [NONE; ALL_OLD]) (this : PutItemQueryBuilder.t),
     storedOptionInSubset (PutItemQueryBuilder.returnValues opt this)) ∧
  (∀ (this : PutItemQueryBuilder.t) (cs : list PutItemQueryBuilder.Call),
     storedOptionInSubset this →
     storedOptionInSubset (PutItemQueryBuilder.chain cs this)).
Proof.
  split_and!.
  - intros [o Ho]. cbn. destruct o; try done; auto.
  - intros s [->| ->]; [by exists optNONE|by exists optALL_OLD].
  - intros s Hs [[o Ho] Heq]. cbn in Heq. subst o.
    destruct Hs as [->|[->| ->]]; exact Ho.
  - intros [o Ho] this rv [= <-]. cbn. destruct o; try done; auto.
  - intros this cs Hthis.
    induction cs as [|c cs IH] using rev_ind; [done|].
    rewrite chain_snoc. by apply call_storedOptionInSubset.
Qed.

Lemma returnValues_accepts_subset_witness :
  (∃ opt : Extract [NONE; ALL_OLD], `opt = ALL_OLD) ∧
  (¬ ∃ opt : Extract [NONE; ALL_OLD], `opt = ALL_NEW) ∧
  storedOptionInSubset
    (PutItemQueryBuilder.chain
       [PutItemQueryBuilder.CallReturnValues optALL_OLD;
        PutItemQueryBuilder.CallItem {[ "userId" := AVString "333" ]}]
       myTableBuilder).
Proof.
  destruct returnValues_accepts_subset as (_ & H2 & H3 & _ & H5).
  split_and!.
  - apply H2. right. reflexivity.
  - apply H3. right. left. reflexivity.
  - apply H5. intros rv Hrv. simpl in Hrv. discriminate Hrv.
Defined.

(** ** Awaiting a builder *)

(** C3. Awaiting any put-item builder does not resolve to a value: it
    raises an error whose message tells the caller to call the [execute]
    method. *)
Theorem await_builder_throws (b : PutItemQueryBuilder.t) :
  await b = Thrown
    "Don't await PutQueryBuilder instances directly. To execute the query you need to call the `execute` method" ∧
  (∀ message, await b = Thrown message →
     occursIn "call the `execute` method" message = true) ∧
  (∀ value, await b ≠ Fulfilled value).
Proof.
  split_and!; [done| |done].
  by intros message [= <-].
Qed.

Lemma await_builder_throws_witness :
  occursIn "call the `execute` method"
    "Don't await PutQueryBuilder instances directly. To execute the query you need to call the `execute` method"
  = true.
Proof.
  destruct (await_builder_throws myTableBuilder) as (_ & H & _).
  apply H. reflexivity.
Defined.

(** ** Update sequences *)

Lemma UpdateBuilder_chain_snoc cs c (u : UpdateExpression) :
  UpdateBuilder.chain (cs ++ [c]) u = UpdateBuilder.call c (UpdateBuilder.chain cs u).
Proof. unfold UpdateBuilder.chain. by rewrite foldl_app. Qed.

Lemma UpdateBuilder_chain_sequences cs (u : UpdateExpression) :
  UpdateBuilder.chain cs u =
    {| setUpdateExpressions := setUpdateExpressions u ++ setEntries cs;
       removeUpdateExpressions := removeUpdateExpressions u ++ removeEntries cs;
       addUpdateExpressions := addUpdateExpressions u ++ addEntries cs |}.
Proof.
  induction cs as [|c cs IH] using rev_ind.
  - destruct u. cbn. by rewrite !app_nil_r.
  - rewrite UpdateBuilder_chain_snoc, IH.
    unfold setEntries, removeEntries, addEntries. rewrite !omap_app.
    destruct c; cbn; by rewrite ?app_nil_r, ?app_assoc.
Qed.

Lemma compileEntries_length {A} (f : A → Alloc string) (l : list A) tbl :
  length (compileEntries f l tbl).1 = length l.
Proof.
  revert tbl. induction l as [|e l IH]; intros tbl; [done|].
  cbn. unfold bind. destruct (f e tbl) as [s tbl1].
  specialize (IH tbl1). destruct (compileEntries f l tbl1) as [ss tbl2].
  cbn in *. by rewrite IH.
Qed.

Lemma clause_sublist k entries :
  fst <$> clause k entries = (if decide (entries = []) then [] else [k]).
Proof. by destruct entries. Qed.

Lemma clause_elem_of k k' entries entries' :
  (k', entries') ∈ clause k entries → k' = k ∧ entries' = entries ∧ entries ≠ [].
Proof.
  destruct entries as [|e entries]; cbn; [by intros ?%elem_of_nil|].
  by intros [= -> ->]%list_elem_of_singleton.
Qed.

(** C4. The update node is three sequences, one per kind, each typed by
    its kind's entries.  A [set], [remove] or [add] call appends its entry
    to the sequence of its kind and leaves the other two as they were, so
    after any chain of calls each sequence holds the entries of its kind in
    call order; and the compiler emits at most one clause per kind, in the
    order SET, REMOVE, ADD, a clause holding as many entries as the sequence
    of its kind and none for an empty sequence. *)
Theorem update_sequences_independent (u : UpdateExpression) :
  u = mkUpdateExpression (setUpdateExpressions u) (removeUpdateExpressions u)
        (addUpdateExpressions u) ∧
  (∀ e, setUpdateExpressions (UpdateBuilder.set e u) = setUpdateExpressions u ++ [e] ∧
        removeUpdateExpressions (UpdateBuilder.set e u) = removeUpdateExpressions u ∧
        addUpdateExpressions (UpdateBuilder.set e u) = addUpdateExpressions u) ∧
  (∀ e, removeUpdateExpressions (UpdateBuilder.remove e u) = removeUpdateExpressions u ++ [e] ∧
        setUpdateExpressions (UpdateBuilder.remove e u) = setUpdateExpressions u ∧
        addUpdateExpressions (UpdateBuilder.remove e u) = addUpdateExpressions u) ∧
  (∀ e, addUpdateExpressions (UpdateBuilder.add e u) = addUpdateExpressions u ++ [e] ∧
        setUpdateExpressions (UpdateBuilder.add e u) = setUpdateExpressions u ∧
        removeUpdateExpressions (UpdateBuilder.add e u) = removeUpdateExpressions u) ∧
  (∀ cs,
     setUpdateExpressions (UpdateBuilder.chain cs u)
       = setUpdateExpressions u ++ setEntries cs ∧
     removeUpdateExpressions (UpdateBuilder.chain cs u)
       = removeUpdateExpressions u ++ removeEntries cs ∧
     addUpdateExpressions (UpdateBuilder.chain cs u)
       = addUpdateExpressions u ++ addEntries cs) ∧
  (∀ tbl,
     let clauses := (compileUpdateClauses u tbl).1 in
     fst <$> clauses `sublist_of` [SET; REMOVE; ADD] ∧
     NoDup (fst <$> clauses) ∧
     (∀ k entries, (k, entries) ∈ clauses →
        entries ≠ [] ∧ length entries = entriesOf k u) ∧
     (∀ k, entriesOf k u ≠ 0 → k ∈ fst <$> clauses)).
Proof.
  split_and!; try done.
  - by destruct u.
  - intros cs. by rewrite UpdateBuilder_chain_sequences.
  - intros tbl clauses. subst clauses.
    unfold compileUpdateClauses, bind.
    pose proof (compileEntries_length compileSetUpdateExpression
                  (setUpdateExpressions u) tbl) as Hs.
    destruct (compileEntries compileSetUpdateExpression _ tbl) as [sets tbl1].
    pose proof (compileEntries_length compileRemoveUpdateExpression
                  (removeUpdateExpressions u) tbl1) as Hr.
    destruct (compileEntries compileRemoveUpdateExpression _ tbl1) as [removes tbl2].
    pose proof (compileEntries_length compileAddUpdateExpression
                  (addUpdateExpressions u) tbl2) as Ha.
    destruct (compileEntries compileAddUpdateExpression _ tbl2) as [adds tbl3].
    cbn in *.
    assert (fst <$> (clause SET sets ++ clause REMOVE removes ++ clause ADD adds)
              `sublist_of` [SET; REMOVE; ADD]) as Hsub.
    { rewrite !fmap_app, !clause_sublist.
      repeat case_decide; cbn; repeat (constructor || by apply sublist_nil_l). }
    split_and!.
    + exact Hsub.
    + eapply sublist_NoDup; [|exact Hsub].
      repeat (apply NoDup_cons; split;
        [rewrite ?elem_of_cons, ?elem_of_nil; intuition congruence|]).
      apply NoDup_nil_2.
    + intros k entries [Hin|[Hin|Hin]%elem_of_app]%elem_of_app;
        apply clause_elem_of in Hin as (-> & -> & Hne); by split.
    + intros k Hk. rewrite !fmap_app, !clause_sublist.
      destruct k; cbn in Hk; repeat case_decide; subst; cbn in *; try done;
        set_solver.
Qed.

Lemma update_sequences_independent_witness :
  entriesOf SET countThenTemp ≠ 0 ∧
  SET ∈ (compileUpdateClauses countThenTemp PlaceholderTable.empty).1.*1 ∧
  (SET, ["#n0 = #n0 + :v0"])
    ∈ (compileUpdateClauses countThenTemp PlaceholderTable.empty).1 ∧
  length ["#n0 = #n0 + :v0"] = entriesOf SET countThenTemp.
Proof.
  destruct (update_sequences_independent countThenTemp)
    as (_ & _ & _ & _ & _ & Hclauses).
  destruct (Hclauses PlaceholderTable.empty) as (_ & _ & Hentries & Hpresent).
  assert (entriesOf SET countThenTemp ≠ 0) as Hne by (vm_compute; discriminate).
  assert ((SET, ["#n0 = #n0 + :v0"])
            ∈ (compileUpdateClauses countThenTemp PlaceholderTable.empty).1) as Hin
    by (vm_compute; apply list_elem_of_here).
  split_and!.
  - exact Hne.
  - exact (Hpresent SET Hne).
  - exact Hin.
  - exact (proj2 (Hentries SET _ Hin)).
Defined.

(** ** Alias allocation *)

Section Alloc_facts.
Import PlaceholderTable.

Global Instance valueAlias_inj : Inj (=) (=) valueAlias.
Proof.
  intros i j H. apply (inj pretty). by apply (inj (String.append ":v")).
Qed.

Global Instance nameAlias_inj : Inj (=) (=) nameAlias.
Proof.
  intros i j H. apply (inj pretty). by apply (inj (String.append "#n")).
Qed.

Lemma firstAliases_S alias k :
  firstAliases alias (S k) = {[ alias k ]} ∪ firstAliases alias k.
Proof.
  unfold firstAliases. rewrite seq_S, fmap_app, list_to_set_app_L. cbn.
  set_solver.
Qed.

Lemma size_firstAliases alias `{!Inj (=) (=) alias} k :
  size (firstAliases alias k) = k.
Proof.
  unfold firstAliases. rewrite size_list_to_set.
  - by rewrite length_fmap, length_seq.
  - apply NoDup_fmap_2; [done|apply NoDup_seq].
Qed.

Lemma numbered_empty : numbered empty.
Proof. split; cbn; by rewrite dom_empty_L. Qed.

Lemma allocates_ret {A} (a : A) : allocates (ret a) 0.
Proof. intros tbl Htbl. cbn. split; [done|lia]. Qed.

Lemma allocates_bind {A B} (m : Alloc A) (f : A → Alloc B) j k :
  allocates m j → (∀ a, allocates (f a) k) → allocates (bind m f) (j + k).
Proof.
  intros Hm Hf tbl Htbl. unfold bind.
  destruct (Hm tbl Htbl) as [Hn Hc]. destruct (m tbl) as [a tbl1]. cbn in *.
  destruct (Hf a tbl1 Hn) as [Hn' Hc']. split; [done|lia].
Qed.

Lemma allocates_aliasValue v : allocates (aliasValue v) 1.
Proof.
  intros tbl [Hv Hn]. unfold aliasValue, numbered. cbn -[firstAliases].
  rewrite dom_insert_L, firstAliases_S, Hv. split_and!; [done|done|lia].
Qed.

Lemma allocates_aliasName segment : allocates (aliasName segment) 0.
Proof.
  intros tbl [Hv Hn]. unfold aliasName.
  destruct (findName segment tbl) as [a|]; cbn.
  - split; [done|lia].
  - unfold numbered. cbn -[firstAliases].
    rewrite dom_insert_L, firstAliases_S, Hn. split_and!; [done|done|lia].
Qed.

End Alloc_facts.

Create HintDb alloc discriminated.
#[local] Hint Resolve allocates_ret allocates_aliasValue allocates_aliasName : alloc.

(** [allocates_bind] with the sum left to be computed. *)
Lemma allocates_bind_eq {A B} (m : Alloc A) (f : A → Alloc B) j k n :
  allocates m j → (∀ a, allocates (f a) k) → n = j + k → allocates (bind m f) n.
Proof. intros Hm Hf ->. by apply allocates_bind. Qed.

Ltac allocates_step :=
  first
    [ eapply allocates_bind_eq; [solve [eauto with alloc]| intros ? | reflexivity]
    | solve [eauto with alloc] ].

Lemma allocates_compileSegment segment : allocates (compileSegment segment) 0.
Proof.
  unfold compileSegment. destruct (splitIndex segment) as [name idx].
  repeat allocates_step.
Qed.
#[local] Hint Resolve allocates_compileSegment : alloc.

Lemma allocates_compileSegments segments : allocates (compileSegments segments) 0.
Proof.
  induction segments as [|seg rest IH]; cbn [compileSegments].
  - apply allocates_ret.
  - eapply allocates_bind_eq; [apply allocates_compileSegment|intros s|reflexivity].
    eapply allocates_bind_eq; [exact IH|intros ss|reflexivity].
    apply allocates_ret.
Qed.
#[local] Hint Resolve allocates_compileSegments : alloc.

Lemma allocates_compilePath path : allocates (compilePath path) 0.
Proof. unfold compilePath. repeat allocates_step. Qed.
#[local] Hint Resolve allocates_compilePath : alloc.

Lemma allocates_compileMembers (f : Node → Alloc string) first (cs : ExpressionNode) :
  Forall (λ cn, allocates (f cn.2) (countValues cn.2)) cs →
  allocates (compileMembers f first cs) (countExpressionValues cs).
Proof.
  intros Hcs. revert first.
  induction Hcs as [|cn cs Hcn Hcs IH]; intros first; cbn [compileMembers].
  - apply allocates_ret.
  - change (countExpressionValues (cn :: cs))
      with (countValues cn.2 + countExpressionValues cs).
    apply allocates_bind; [exact Hcn|intros s].
    rewrite <- (Nat.add_0_r (countExpressionValues cs)).
    apply allocates_bind; [apply IH|intros r; apply allocates_ret].
Qed.

(** What a computation returns does not matter to what it allocates. *)
Lemma allocates_bind_ret {A B C} (m : Alloc A) (g : A → B) (h : A → C) k :
  allocates (bind m (λ a, ret (g a))) k → allocates (bind m (λ a, ret (h a))) k.
Proof.
  intros H tbl Htbl. specialize (H tbl Htbl). unfold bind, ret in *.
  by destruct (m tbl).
Qed.

Lemma allocates_compileNode n : allocates (compileNode n) (countValues n).
Proof.
  induction n as [p o v|p f|p v|p v|p l u|c IH|cs IH] using Node_ind_nested;
    cbn [compileNode countValues]; try (repeat allocates_step).
  - rewrite <- (Nat.add_0_r (countValues c)).
    apply allocates_bind; [|intros s; apply allocates_ret].
    destruct c; try exact IH.
    cbn [compileNode] in IH. revert IH. apply allocates_bind_ret.
  - eapply allocates_bind_eq;
      [by apply allocates_compileMembers|intros s; apply allocates_ret|].
    unfold countExpressionValues. lia.
Qed.
#[local] Hint Resolve allocates_compileNode : alloc.

Lemma allocates_compileExpression (e : ExpressionNode) :
  allocates (compileExpression e) (countExpressionValues e).
Proof.
  apply allocates_compileMembers, Forall_forall. intros cn _.
  apply allocates_compileNode.
Qed.

Lemma allocates_compileEntries {A} (f : A → Alloc string) j (l : list A) :
  (∀ e, allocates (f e) j) → allocates (compileEntries f l) (j * length l).
Proof.
  intros Hf. induction l as [|e l IH]; cbn [compileEntries].
  - rewrite Nat.mul_0_r. apply allocates_ret.
  - eapply allocates_bind_eq; [apply Hf|intros s|].
    + eapply allocates_bind_eq; [exact IH|intros ss; apply allocates_ret|reflexivity].
    + cbn [length]. lia.
Qed.

Lemma allocates_compileSetUpdateExpression e :
  allocates (compileSetUpdateExpression e) 1.
Proof.
  unfold compileSetUpdateExpression.
  eapply allocates_bind_eq; [apply allocates_compilePath|intros p|reflexivity].
  destruct (set_value e); repeat allocates_step.
Qed.

Lemma allocates_compileRemoveUpdateExpression e :
  allocates (compileRemoveUpdateExpression e) 0.
Proof. apply allocates_compilePath. Qed.

Lemma allocates_compileAddUpdateExpression e :
  allocates (compileAddUpdateExpression e) 1.
Proof. unfold compileAddUpdateExpression. repeat allocates_step. Qed.

Lemma allocates_compileUpdateExpression u :
  allocates (compileUpdateExpression u) (countUpdateValues u).
Proof.
  assert (countUpdateValues u
          = (1 * length (setUpdateExpressions u)
             + (0 * length (removeUpdateExpressions u)
                + (1 * length (addUpdateExpressions u) + 0))) + 0) as ->
    by (unfold countUpdateValues; lia).
  unfold compileUpdateExpression, compileUpdateClauses.
  apply allocates_bind; [|intros clauses; apply allocates_ret].
  apply allocates_bind;
    [apply allocates_compileEntries, allocates_compileSetUpdateExpression|intros sets].
  apply allocates_bind;
    [apply allocates_compileEntries, allocates_compileRemoveUpdateExpression
    |intros removes].
  apply allocates_bind;
    [apply allocates_compileEntries, allocates_compileAddUpdateExpression
    |intros adds; apply allocates_ret].
Qed.

(** The table a compile pass ends with. *)
Lemma compileWith_table tbl (n : OperationNode.t) :
  numbered tbl →
  let r := compileWith tbl n in
  numbered r.2 ∧
  PlaceholderTable.valueCounter r.2
    = PlaceholderTable.valueCounter tbl + countOperationValues n ∧
  Command.ExpressionAttributeValues r.1 = presentMap (PlaceholderTable.values r.2) ∧
  Command.ExpressionAttributeNames r.1 = presentMap (PlaceholderTable.names r.2).
Proof.
  intros Htbl. cbn zeta. unfold compileWith.
  assert (allocates
            (let* cond := compileExpression (OperationNode.conditionExpression n) in
             let* upd := compileUpdateExpression (OperationNode.updateExpression n) in
             ret (cond, upd)) (countOperationValues n)) as Halloc.
  { unfold countOperationValues.
    apply allocates_bind; [apply allocates_compileExpression|intros cond].
    rewrite <- (Nat.add_0_r (countUpdateValues _)).
    apply allocates_bind;
      [apply allocates_compileUpdateExpression|intros upd; apply allocates_ret]. }
  destruct (Halloc tbl Htbl) as [Hn Hc].
  by destruct (bind _ _ tbl) as [texts tbl'].
Qed.

Lemma aliases_presentMap {V} (m : gmap string V) : aliases (presentMap m) = dom m.
Proof.
  unfold presentMap. case_decide as Hsize; [|done].
  apply map_size_empty_inv in Hsize as ->. cbn. by rewrite dom_empty_L.
Qed.

(** ** Value aliases *)

Lemma countOperationValues_put (p : PutNode.t) :
  countOperationValues (operationOfPutNode p)
  = countExpressionValues (PutNode.conditionExpression p).
Proof. exact (Nat.add_0_r _). Qed.

(** C8. For every operation node, the compiled value map holds as many
    aliases as the node references literal values, equal values included:
    no two occurrences share an alias.  In particular a put node's value
    map has one alias per literal occurrence of its condition. *)
Theorem value_aliases_one_per_occurrence (n : OperationNode.t) :
  let c := compileOperation n in
  size (aliases (Command.ExpressionAttributeValues c)) = countOperationValues n ∧
  (∀ m, Command.ExpressionAttributeValues c = Some m → size m = countOperationValues n) ∧
  (Command.ExpressionAttributeValues c = None ↔ countOperationValues n = 0) ∧
  (∀ p : PutNode.t,
     size (aliases (Command.ExpressionAttributeValues (compilePutNode p)))
     = countExpressionValues (PutNode.conditionExpression p)).
Proof.
  assert (∀ n, size (aliases (Command.ExpressionAttributeValues (compileOperation n)))
               = countOperationValues n) as Hsize.
  { clear n. intros n. unfold compileOperation.
    destruct (compileWith_table PlaceholderTable.empty n numbered_empty)
      as ([Hv _] & Hc & -> & _).
    rewrite aliases_presentMap, Hv, size_firstAliases by apply _.
    by rewrite Hc. }
  cbn zeta. specialize (Hsize n) as Hn. split_and!.
  - exact Hn.
  - intros m Hm. rewrite Hm in Hn. cbn in Hn. by rewrite size_dom in Hn.
  - destruct (Command.ExpressionAttributeValues (compileOperation n)) as [m|] eqn:Hm.
    + split; [done|]. intros H0. rewrite H0 in Hn. cbn in Hn.
      rewrite size_dom in Hn.
      unfold compileOperation in Hm.
      destruct (compileWith_table PlaceholderTable.empty n numbered_empty)
        as (_ & _ & Hp & _).
      rewrite Hp in Hm. unfold presentMap in Hm. case_decide as Hs; [done|].
      injection Hm as <-. done.
    + split; [|done]. intros _. by rewrite <- Hn.
  - intros p. unfold compilePutNode. by rewrite Hsize, countOperationValues_put.
Qed.

Lemma value_aliases_one_per_occurrence_witness :
  Command.ExpressionAttributeValues (compileOperation twiceTheSameValue)
    = Some twiceTheSameValue_values ∧
  size twiceTheSameValue_values = countOperationValues twiceTheSameValue.
Proof.
  assert (Command.ExpressionAttributeValues (compileOperation twiceTheSameValue)
          = Some twiceTheSameValue_values) as H by (vm_compute; reflexivity).
  split; [exact H|].
  destruct (value_aliases_one_per_occurrence twiceTheSameValue) as (_ & Hsize & _).
  exact (Hsize twiceTheSameValue_values H).
Defined.

(** ** Determinism *)

(** A compile invocation gives the command of its node and hands the
    session back as it was. *)
Lemma compileInvocation_run (n : OperationNode.t) (s : CompilerSession.t) :
  compileInvocation n s = Some (compileOperation n, s).
Proof.
  unfold compileInvocation, CompilerSession.createTable,
    CompilerSession.renderOn, CompilerSession.discardTable, compileOperation.
  cbv beta iota zeta. rewrite lookup_insert_eq.
  destruct (compileWith PlaceholderTable.empty n) as [c tbl'].
  cbv beta iota zeta. rewrite insert_insert_eq, delete_insert_id; [done|].
  apply not_elem_of_dom, is_fresh.
Qed.

Lemma compileInvocations_run (ns : list OperationNode.t) (s : CompilerSession.t) :
  compileInvocations ns s = Some (compileOperation <$> ns, s).
Proof.
  induction ns as [|n ns IH]; [done|].
  cbn [compileInvocations]. by rewrite compileInvocation_run, IH.
Qed.

(** With one table kept alive for two rendering passes of the same node,
    the second command is another: its value aliases go on from where the
    first stopped. *)
Example keeping_table_renumbers :
  (let (id, s) := CompilerSession.createTable ∅ in
   r1 ← CompilerSession.renderOn id (λ tbl, compileWith tbl twiceTheSameValue) s;
   r2 ← CompilerSession.renderOn id (λ tbl, compileWith tbl twiceTheSameValue) r1.2;
   Some (Command.ConditionExpression r1.1, Command.ConditionExpression r2.1))
  = Some (Some "#n0 = :v0 AND #n1 = :v1", Some "#n0 = :v2 AND #n1 = :v3").
Proof. vm_compute. reflexivity. Qed.

(** C7. Compilation is deterministic.  In every session, whatever tables
    are alive in it, a compile invocation returns a command and leaves the
    session as it found it, its table discarded; so a node compiled twice,
    with any other nodes compiled in between, yields the same command both
    times.  The aliases of the command are numbered from zero: its value
    aliases are exactly the first ones, one per literal occurrence, and its
    name aliases are the first ones.  [keeping_table_renumbers] shows the
    two commands differ where the table outlives the invocation. *)
Theorem compile_deterministic (n : OperationNode.t) :
  let c := compileOperation n in
  (∀ s, compileInvocation n s = Some (c, s)) ∧
  (∀ between s,
     compileInvocations (n :: between ++ [n]) s
       = Some (c :: (compileOperation <$> between) ++ [c], s)) ∧
  aliases (Command.ExpressionAttributeValues c)
    = firstAliases PlaceholderTable.valueAlias (countOperationValues n) ∧
  aliases (Command.ExpressionAttributeNames c)
    = firstAliases PlaceholderTable.nameAlias
        (size (PlaceholderTable.names (compileWith PlaceholderTable.empty n).2)) ∧
  (∀ p : PutNode.t,
     aliases (Command.ExpressionAttributeValues (compilePutNode p))
       = firstAliases PlaceholderTable.valueAlias
           (countExpressionValues (PutNode.conditionExpression p))).
Proof.
  assert (∀ n, aliases (Command.ExpressionAttributeValues (compileOperation n))
               = firstAliases PlaceholderTable.valueAlias (countOperationValues n))
    as Hvalues.
  { clear n. intros n. unfold compileOperation.
    destruct (compileWith_table PlaceholderTable.empty n numbered_empty)
      as ([Hv _] & Hc & -> & _).
    by rewrite aliases_presentMap, Hv, Hc. }
  cbn zeta. split_and!.
  - intros s. apply compileInvocation_run.
  - intros between s.
    by rewrite compileInvocations_run, fmap_cons, fmap_app.
  - apply Hvalues.
  - unfold compileOperation.
    destruct (compileWith_table PlaceholderTable.empty n numbered_empty)
      as ([_ Hn] & _ & _ & ->).
    rewrite aliases_presentMap, Hn.
    by rewrite <- size_dom, Hn, size_firstAliases by apply _.
  - intros p. unfold compilePutNode.
    by rewrite Hvalues, countOperationValues_put.
Qed.

(** ** Calls over the object store *)

Section Store_facts.
Import Store.
Implicit Types (σ : store) (l : loc).

Lemma bind_run {A B} (m : Heap A) (k : A → Heap B) σ a σ1 :
  m σ = Some (a, σ1) → (m ≫= k) σ = k a σ1.
Proof. unfold mbind, Heap_bind. by intros ->. Qed.

Lemma load_run σ l o : σ !! l = Some o → load l σ = Some (o, σ).
Proof. unfold load. by intros ->. Qed.

(** A new object takes a location the store does not hold, and the store
    is only extended. *)
Lemma new_run o σ :
  ∃ l σ', new o σ = Some (l, σ') ∧ σ !! l = None ∧ σ' !! l = Some o ∧ σ ⊆ σ'.
Proof.
  assert (σ !! fresh (dom σ) = None) as Hfresh
    by apply not_elem_of_dom, is_fresh.
  exists (fresh (dom σ)), (<[fresh (dom σ) := o]> σ). split_and!.
  - done.
  - done.
  - apply lookup_insert_eq.
  - by apply insert_subseteq.
Qed.

(** *** Reading is stable under extension of the store *)

Ltac weaken Hsub :=
  repeat match goal with
  | H : match ?σ !! ?l with _ => _ end = Some _ |- _ =>
      let Hl := fresh "Hl" in
      destruct (σ !! l) as [[]|] eqn:Hl; try discriminate H;
      rewrite (lookup_weaken _ _ _ _ Hl Hsub)
  end.

Lemma readTableNode_mono σ σ' l x :
  σ ⊆ σ' → readTableNode σ l = Some x → readTableNode σ' l = Some x.
Proof. intros Hsub H. unfold readTableNode in *. by weaken Hsub. Qed.

Lemma readExpressionNode_mono σ σ' l x :
  σ ⊆ σ' → readExpressionNode σ l = Some x → readExpressionNode σ' l = Some x.
Proof. intros Hsub H. unfold readExpressionNode in *. by weaken Hsub. Qed.

Lemma readItemNode_mono σ σ' l x :
  σ ⊆ σ' → readItemNode σ l = Some x → readItemNode σ' l = Some x.
Proof. intros Hsub H. unfold readItemNode in *. by weaken Hsub. Qed.

Lemma readReturnValuesNode_mono σ σ' l x :
  σ ⊆ σ' → readReturnValuesNode σ l = Some x → readReturnValuesNode σ' l = Some x.
Proof. intros Hsub H. unfold readReturnValuesNode in *. by weaken Hsub. Qed.

Lemma readOptional_mono {A} (read read' : loc → option A) ol x :
  (∀ l y, read l = Some y → read' l = Some y) →
  readOptional read ol = Some x → readOptional read' ol = Some x.
Proof.
  intros Hread. destruct ol as [l|]; cbn; [|done].
  destruct (read l) as [y|] eqn:Hl; [|done].
  by rewrite (Hread _ _ Hl).
Qed.

Lemma readPutNode_mono σ σ' l x :
  σ ⊆ σ' → readPutNode σ l = Some x → readPutNode σ' l = Some x.
Proof.
  intros Hsub H. unfold readPutNode in *. weaken Hsub.
  destruct (readTableNode σ _) as [t|] eqn:Ht; [|done].
  destruct (readExpressionNode σ _) as [c|] eqn:Hc; [|done].
  destruct (readOptional (readItemNode σ) _) as [i|] eqn:Hi; [|done].
  destruct (readOptional (readReturnValuesNode σ) _) as [r|] eqn:Hr; [|done].
  rewrite (readTableNode_mono _ _ _ _ Hsub Ht),
    (readExpressionNode_mono _ _ _ _ Hsub Hc),
    (readOptional_mono _ (readItemNode σ') _ _
       (λ l y, readItemNode_mono σ σ' l y Hsub) Hi),
    (readOptional_mono _ (readReturnValuesNode σ') _ _
       (λ l y, readReturnValuesNode_mono σ σ' l y Hsub) Hr).
  exact H.
Qed.

Lemma readProps_mono σ σ' l x :
  σ ⊆ σ' → readProps σ l = Some x → readProps σ' l = Some x.
Proof.
  intros Hsub H. unfold readProps in *. weaken Hsub.
  destruct (readPutNode σ _) as [n|] eqn:Hn; [|done].
  by rewrite (readPutNode_mono _ _ _ _ Hsub Hn).
Qed.

Lemma readBuilder_mono σ σ' l x :
  σ ⊆ σ' → readBuilder σ l = Some x → readBuilder σ' l = Some x.
Proof.
  intros Hsub H. unfold readBuilder in *. weaken Hsub.
  destruct (readProps σ _) as [p|] eqn:Hp; [|done].
  by rewrite (readProps_mono _ _ _ _ Hsub Hp).
Qed.

Lemma readExpressionBuilder_mono σ σ' l x :
  σ ⊆ σ' → readExpressionBuilder σ l = Some x → readExpressionBuilder σ' l = Some x.
Proof.
  intros Hsub H. unfold readExpressionBuilder in *. weaken Hsub.
  destruct (readExpressionNode σ _) as [e|] eqn:He; [|done].
  by rewrite (readExpressionNode_mono _ _ _ _ Hsub He).
Qed.

(** *** What a readable object is made of *)

Lemma readExpressionNode_inv σ l e :
  readExpressionNode σ l = Some e →
  ∃ arr, σ !! l = Some (ExpressionNodeObj arr) ∧ σ !! arr = Some (ArrayObj e).
Proof.
  unfold readExpressionNode. intros H.
  repeat case_match; simplify_eq. eauto.
Qed.

Lemma readPutNode_inv σ l n :
  readPutNode σ l = Some n →
  ∃ t c i r,
    σ !! l = Some (PutNodeObj t c i r) ∧
    readTableNode σ t = Some (PutNode.table n) ∧
    readExpressionNode σ c = Some (PutNode.conditionExpression n) ∧
    readOptional (readItemNode σ) i = Some (PutNode.item n) ∧
    readOptional (readReturnValuesNode σ) r = Some (PutNode.returnValues n).
Proof.
  unfold readPutNode. intros H.
  destruct (σ !! l) as [[]|] eqn:Hl; try done.
  destruct (readTableNode σ _) as [t'|] eqn:Ht; [|done].
  destruct (readExpressionNode σ _) as [c'|] eqn:Hc; [|done].
  destruct (readOptional (readItemNode σ) _) as [i'|] eqn:Hi; [|done].
  destruct (readOptional (readReturnValuesNode σ) _) as [r'|] eqn:Hr; [|done].
  cbn in H. injection H as <-. cbn. eauto 10.
Qed.

Lemma readProps_inv σ l p :
  readProps σ l = Some p →
  ∃ n,
    σ !! l = Some (PutItemQueryBuilderPropsObj n
                     (PutItemQueryBuilderProps.ddbClient p)
                     (PutItemQueryBuilderProps.queryCompiler p)) ∧
    readPutNode σ n = Some (PutItemQueryBuilderProps.node p).
Proof.
  unfold readProps. intros H.
  destruct (σ !! l) as [[]|] eqn:Hl; try done.
  destruct (readPutNode σ _) as [n'|] eqn:Hn; [|done].
  cbn in H. injection H as <-. cbn. eauto.
Qed.

Lemma readBuilder_inv σ l b :
  readBuilder σ l = Some b →
  ∃ p, σ !! l = Some (PutItemQueryBuilderObj p) ∧
       readProps σ p = Some (PutItemQueryBuilder.props b).
Proof.
  unfold readBuilder. intros H.
  destruct (σ !! l) as [[]|] eqn:Hl; try done.
  destruct (readProps σ _) as [p'|] eqn:Hp; [|done].
  cbn in H. injection H as <-. cbn. eauto.
Qed.

Lemma readExpressionBuilder_inv σ l e :
  readExpressionBuilder σ l = Some e →
  ∃ p n, σ !! l = Some (ExpressionBuilderObj p) ∧
         σ !! p = Some (ExpressionBuilderPropsObj n) ∧
         readExpressionNode σ n = Some (ExpressionBuilder.node e).
Proof.
  unfold readExpressionBuilder. intros H.
  repeat case_match; simplify_eq.
  destruct (readExpressionNode σ _) as [e'|] eqn:He; [|done].
  cbn in H. injection H as <-. cbn. eauto.
Qed.

(** *** Member accesses *)

Lemma builderProps_run σ this b :
  readBuilder σ this = Some b →
  ∃ p, builderProps this σ = Some (p, σ) ∧
       readProps σ p = Some (PutItemQueryBuilder.props b).
Proof.
  intros (p & Hthis & Hp)%readBuilder_inv. exists p. split; [|done].
  unfold builderProps. by rewrite (bind_run _ _ _ _ _ (load_run _ _ _ Hthis)).
Qed.

Lemma propsNode_run σ this b :
  readBuilder σ this = Some b →
  ∃ n, propsNode this σ = Some (n, σ) ∧
       readPutNode σ n = Some (PutItemQueryBuilder.node b).
Proof.
  intros (p & Hrun & (n & Hp & Hn)%readProps_inv)%builderProps_run.
  exists n. split; [|done].
  unfold propsNode. rewrite (bind_run _ _ _ _ _ Hrun).
  by rewrite (bind_run _ _ _ _ _ (load_run _ _ _ Hp)).
Qed.

Lemma spreadPropsWithNode_run σ this b node n :
  readBuilder σ this = Some b →
  readPutNode σ node = Some n →
  ∃ l σ',
    spreadPropsWithNode this node σ = Some (l, σ') ∧ σ ⊆ σ' ∧
    readProps σ' l
      = Some (PutItemQueryBuilderProps.mk n
                (PutItemQueryBuilderProps.ddbClient (PutItemQueryBuilder.props b))
                (PutItemQueryBuilderProps.queryCompiler (PutItemQueryBuilder.props b))).
Proof.
  intros (p & Hrun & (n0 & Hp & _)%readProps_inv)%builderProps_run Hnode.
  destruct (new_run (PutItemQueryBuilderPropsObj node
                       (PutItemQueryBuilderProps.ddbClient (PutItemQueryBuilder.props b))
                       (PutItemQueryBuilderProps.queryCompiler (PutItemQueryBuilder.props b)))
              σ) as (l & σ' & Hnew & _ & Hl & Hsub).
  exists l, σ'. split_and!; [|done|].
  - unfold spreadPropsWithNode. rewrite (bind_run _ _ _ _ _ Hrun).
    by rewrite (bind_run _ _ _ _ _ (load_run _ _ _ Hp)).
  - unfold readProps. rewrite Hl.
    by rewrite (readPutNode_mono _ _ _ _ Hsub Hnode).
Qed.

Lemma spreadConditionExpression_run σ this b :
  readBuilder σ this = Some b →
  ∃ l σ',
    spreadConditionExpression this σ = Some (l, σ') ∧ σ ⊆ σ' ∧
    readExpressionNode σ' l
      = Some (PutNode.conditionExpression (PutItemQueryBuilder.node b)).
Proof.
  intros (n & Hrun & (t & c & i & r & Hn & _ & Hc & _)%readPutNode_inv)%propsNode_run.
  apply readExpressionNode_inv in Hc as (arr & Hc & Harr).
  destruct (new_run (ExpressionNodeObj arr) σ) as (l & σ' & Hnew & _ & Hl & Hsub).
  exists l, σ'. split_and!; [|done|].
  - unfold spreadConditionExpression. rewrite (bind_run _ _ _ _ _ Hrun).
    rewrite (bind_run _ _ _ _ _ (load_run _ _ _ Hn)).
    by rewrite (bind_run _ _ _ _ _ (load_run _ _ _ Hc)).
  - unfold readExpressionNode. rewrite Hl.
    by rewrite (lookup_weaken _ _ _ _ Harr Hsub).
Qed.

Lemma spreadNodeWithConditionExpression_run σ this b expressionNode e :
  readBuilder σ this = Some b →
  readExpressionNode σ expressionNode = Some e →
  ∃ l σ',
    spreadNodeWithConditionExpression this expressionNode σ = Some (l, σ') ∧ σ ⊆ σ' ∧
    readPutNode σ' l
      = Some (PutNode.mk (PutNode.table (PutItemQueryBuilder.node b)) e
                (PutNode.item (PutItemQueryBuilder.node b))
                (PutNode.returnValues (PutItemQueryBuilder.node b))).
Proof.
  intros (n & Hrun & (t & c & i & r & Hn & Ht & _ & Hi & Hr)%readPutNode_inv)%propsNode_run
    He.
  destruct (new_run (PutNodeObj t expressionNode i r) σ)
    as (l & σ' & Hnew & _ & Hl & Hsub).
  exists l, σ'. split_and!; [|done|].
  - unfold spreadNodeWithConditionExpression. rewrite (bind_run _ _ _ _ _ Hrun).
    by rewrite (bind_run _ _ _ _ _ (load_run _ _ _ Hn)).
  - unfold readPutNode. rewrite Hl.
    rewrite (readTableNode_mono _ _ _ _ Hsub Ht),
      (readExpressionNode_mono _ _ _ _ Hsub He),
      (readOptional_mono _ (readItemNode σ') _ _
         (λ l y, readItemNode_mono σ σ' l y Hsub) Hi),
      (readOptional_mono _ (readReturnValuesNode σ') _ _
         (λ l y, readReturnValuesNode_mono σ σ' l y Hsub) Hr).
    done.
Qed.

Lemma newPutItemQueryBuilder_run σ props p :
  readProps σ props = Some p →
  ∃ l σ',
    newPutItemQueryBuilder props σ = Some (l, σ') ∧ σ ⊆ σ' ∧ σ !! l = None ∧
    readBuilder σ' l = Some (PutItemQueryBuilder.mk p).
Proof.
  intros Hp.
  destruct (new_run (PutItemQueryBuilderObj props) σ) as (l & σ' & Hnew & Hfresh & Hl & Hsub).
  exists l, σ'. split_and!; try done.
  unfold readBuilder. rewrite Hl. by rewrite (readProps_mono _ _ _ _ Hsub Hp).
Qed.

(** *** Expression builder *)

Lemma newExpressionBuilder_run σ node e :
  readExpressionNode σ node = Some e →
  ∃ l σ',
    newExpressionBuilder node σ = Some (l, σ') ∧ σ ⊆ σ' ∧
    readExpressionBuilder σ' l = Some (ExpressionBuilder.mk e).
Proof.
  intros He.
  destruct (new_run (ExpressionBuilderPropsObj node) σ)
    as (p & σ1 & Hnew1 & _ & Hp & Hsub1).
  destruct (new_run (ExpressionBuilderObj p) σ1)
    as (l & σ2 & Hnew2 & _ & Hl & Hsub2).
  exists l, σ2. split_and!.
  - unfold newExpressionBuilder. by rewrite (bind_run _ _ _ _ _ Hnew1).
  - by etrans.
  - unfold readExpressionBuilder.
    rewrite Hl, (lookup_weaken _ _ _ _ Hp Hsub2).
    by rewrite (readExpressionNode_mono _ _ _ _ Hsub2
                  (readExpressionNode_mono _ _ _ _ Hsub1 He)).
Qed.

Lemma expressionBuilderNode_run σ eB e :
  readExpressionBuilder σ eB = Some e →
  ∃ n, expressionBuilderNode eB σ = Some (n, σ) ∧
       readExpressionNode σ n = Some (ExpressionBuilder._getNode e).
Proof.
  intros (p & n & HeB & Hp & Hn)%readExpressionBuilder_inv.
  exists n. split; [|done].
  unfold expressionBuilderNode.
  rewrite (bind_run _ _ _ _ _ (load_run _ _ _ HeB)).
  by rewrite (bind_run _ _ _ _ _ (load_run _ _ _ Hp)).
Qed.

(** A call on an expression builder extends the store and returns a
    builder that reads as the call's value. *)
Lemma _expression_run σ eB e joinType args :
  readExpressionBuilder σ eB = Some e →
  ∃ l σ',
    _expression joinType args eB σ = Some (l, σ') ∧ σ ⊆ σ' ∧
    readExpressionBuilder σ' l
      = Some (ExpressionBuilder._expression joinType args e).
Proof.
  intros (n & Hrun & (arr & Hn & Harr)%readExpressionNode_inv)%expressionBuilderNode_run.
  destruct (new_run (ArrayObj (ExpressionBuilder._getNode e ++
                                 [(joinType, ExpressionBuilder.nodeOfArgs args)])) σ)
    as (arr' & σ1 & Hnew1 & _ & Harr' & Hsub1).
  destruct (new_run (ExpressionNodeObj arr') σ1)
    as (n' & σ2 & Hnew2 & _ & Hn' & Hsub2).
  assert (readExpressionNode σ2 n'
          = Some (ExpressionBuilder._getNode e ++
                    [(joinType, ExpressionBuilder.nodeOfArgs args)])) as Hread.
  { unfold readExpressionNode. by rewrite Hn', (lookup_weaken _ _ _ _ Harr' Hsub2). }
  destruct (newExpressionBuilder_run _ _ _ Hread) as (l & σ3 & Hnew3 & Hsub3 & Hl).
  exists l, σ3. split_and!.
  - unfold _expression. rewrite (bind_run _ _ _ _ _ Hrun).
    rewrite (bind_run _ _ _ _ _ (load_run _ _ _ Hn)).
    rewrite (bind_run _ _ _ _ _ (load_run _ _ _ Harr)).
    rewrite (bind_run _ _ _ _ _ Hnew1).
    by rewrite (bind_run _ _ _ _ _ Hnew2).
  - by do 2 etrans.
  - exact Hl.
Qed.

(** *** The four modifying calls *)

Lemma withExpression_run σ this b joinType args :
  readBuilder σ this = Some b →
  ∃ r σ',
    (copy ← spreadConditionExpression this;
     eB ← newExpressionBuilder copy;
     eB' ← _expression joinType args eB;
     expressionNode ← _getNode eB';
     node ← spreadNodeWithConditionExpression this expressionNode;
     props ← spreadPropsWithNode this node;
     newPutItemQueryBuilder props) σ = Some (r, σ') ∧
    σ ⊆ σ' ∧ σ !! r = None ∧
    readBuilder σ' r
      = Some (PutItemQueryBuilder.mk
                (PutItemQueryBuilderProps.mk
                   (PutNode.mk (PutNode.table (PutItemQueryBuilder.node b))
                      (PutNode.conditionExpression (PutItemQueryBuilder.node b)
                         ++ [(joinType, ExpressionBuilder.nodeOfArgs args)])
                      (PutNode.item (PutItemQueryBuilder.node b))
                      (PutNode.returnValues (PutItemQueryBuilder.node b)))
                   (PutItemQueryBuilderProps.ddbClient (PutItemQueryBuilder.props b))
                   (PutItemQueryBuilderProps.queryCompiler (PutItemQueryBuilder.props b)))).
Proof.
  intros Hb.
  destruct (spreadConditionExpression_run _ _ _ Hb) as (copy & σ1 & Hrun1 & Hsub1 & Hcopy).
  destruct (newExpressionBuilder_run _ _ _ Hcopy) as (eB & σ2 & Hrun2 & Hsub2 & HeB).
  destruct (_expression_run _ _ _ joinType args HeB) as (eB' & σ3 & Hrun3 & Hsub3 & HeB').
  destruct (expressionBuilderNode_run _ _ _ HeB') as (en & Hrun4 & Hen).
  assert (σ ⊆ σ3) as Hsub by (by do 2 etrans).
  pose proof (readBuilder_mono _ _ _ _ Hsub Hb) as Hb3.
  destruct (spreadNodeWithConditionExpression_run _ _ _ _ _ Hb3 Hen)
    as (node & σ4 & Hrun5 & Hsub4 & Hnode).
  pose proof (readBuilder_mono _ _ _ _ Hsub4 Hb3) as Hb4.
  destruct (spreadPropsWithNode_run _ _ _ _ _ Hb4 Hnode)
    as (props & σ5 & Hrun6 & Hsub5 & Hprops).
  destruct (newPutItemQueryBuilder_run _ _ _ Hprops)
    as (r & σ6 & Hrun7 & Hsub6 & Hfresh & Hr).
  assert (σ ⊆ σ5) as Hsub' by (etrans; [exact Hsub|]; by etrans).
  exists r, σ6. split_and!.
  - rewrite (bind_run _ _ _ _ _ Hrun1), (bind_run _ _ _ _ _ Hrun2),
      (bind_run _ _ _ _ _ Hrun3).
    unfold _getNode. rewrite (bind_run _ _ _ _ _ Hrun4).
    by rewrite (bind_run _ _ _ _ _ Hrun5), (bind_run _ _ _ _ _ Hrun6).
  - by etrans.
  - by apply (lookup_weaken_None σ σ5).
  - exact Hr.
Qed.

Lemma conditionExpression_run σ this b args :
  readBuilder σ this = Some b →
  ∃ r σ',
    conditionExpression args this σ = Some (r, σ') ∧ σ ⊆ σ' ∧ σ !! r = None ∧
    readBuilder σ' r = Some (PutItemQueryBuilder.conditionExpression args b).
Proof. apply withExpression_run. Qed.

Lemma orConditionExpression_run σ this b args :
  readBuilder σ this = Some b →
  ∃ r σ',
    orConditionExpression args this σ = Some (r, σ') ∧ σ ⊆ σ' ∧ σ !! r = None ∧
    readBuilder σ' r = Some (PutItemQueryBuilder.orConditionExpression args b).
Proof. apply withExpression_run. Qed.

(** The tail shared by [item] and [returnValues]: the new node wrapped in
    new props and a new builder. *)
Lemma wrapNode_run σ this b node n :
  readBuilder σ this = Some b →
  readPutNode σ node = Some n →
  ∃ r σ',
    (props ← spreadPropsWithNode this node; newPutItemQueryBuilder props) σ
      = Some (r, σ') ∧
    σ ⊆ σ' ∧ σ !! r = None ∧
    readBuilder σ' r
      = Some (PutItemQueryBuilder.mk
                (PutItemQueryBuilderProps.mk n
                   (PutItemQueryBuilderProps.ddbClient (PutItemQueryBuilder.props b))
                   (PutItemQueryBuilderProps.queryCompiler (PutItemQueryBuilder.props b)))).
Proof.
  intros Hb Hnode.
  destruct (spreadPropsWithNode_run _ _ _ _ _ Hb Hnode)
    as (props & σ1 & Hrun1 & Hsub1 & Hprops).
  destruct (newPutItemQueryBuilder_run _ _ _ Hprops)
    as (r & σ2 & Hrun2 & Hsub2 & Hfresh & Hr).
  exists r, σ2. split_and!.
  - by rewrite (bind_run _ _ _ _ _ Hrun1).
  - by etrans.
  - by apply (lookup_weaken_None σ σ1).
  - exact Hr.
Qed.

Lemma item_run σ this b i :
  readBuilder σ this = Some b →
  ∃ r σ',
    item i this σ = Some (r, σ') ∧ σ ⊆ σ' ∧ σ !! r = None ∧
    readBuilder σ' r = Some (PutItemQueryBuilder.item i b).
Proof.
  intros Hb.
  destruct (propsNode_run _ _ _ Hb)
    as (old & Hrun & (t & c & oi & r0 & Hold & Ht & Hc & _ & Hr0)%readPutNode_inv).
  destruct (new_run (ItemNodeObj i) σ) as (itemNode & σ1 & Hnew1 & _ & Hi & Hsub1).
  destruct (new_run (PutNodeObj t c (Some itemNode) r0) σ1)
    as (node & σ2 & Hnew2 & _ & Hnode & Hsub2).
  assert (σ ⊆ σ2) as Hsub by (by etrans).
  assert (readPutNode σ2 node
          = Some (PutNode.mk (PutNode.table (PutItemQueryBuilder.node b))
                    (PutNode.conditionExpression (PutItemQueryBuilder.node b))
                    (Some (ItemNode.mk i))
                    (PutNode.returnValues (PutItemQueryBuilder.node b)))) as Hread.
  { unfold readPutNode. rewrite Hnode.
    rewrite (readTableNode_mono _ _ _ _ Hsub Ht),
      (readExpressionNode_mono _ _ _ _ Hsub Hc),
      (readOptional_mono _ (readReturnValuesNode σ2) _ _
         (λ l y, readReturnValuesNode_mono σ σ2 l y Hsub) Hr0).
    cbn. unfold readItemNode. by rewrite (lookup_weaken _ _ _ _ Hi Hsub2). }
  destruct (wrapNode_run _ _ _ _ _ (readBuilder_mono _ _ _ _ Hsub Hb) Hread)
    as (r & σ3 & Hrun3 & Hsub3 & Hfresh & Hr).
  exists r, σ3. split_and!.
  - unfold item. rewrite (bind_run _ _ _ _ _ Hrun).
    rewrite (bind_run _ _ _ _ _ (load_run _ _ _ Hold)).
    by rewrite (bind_run _ _ _ _ _ Hnew1), (bind_run _ _ _ _ _ Hnew2).
  - by etrans.
  - by apply (lookup_weaken_None σ σ2).
  - exact Hr.
Qed.

Lemma returnValues_run σ this b opt :
  readBuilder σ this = Some b →
  ∃ r σ',
    returnValues opt this σ = Some (r, σ') ∧ σ ⊆ σ' ∧ σ !! r = None ∧
    readBuilder σ' r = Some (PutItemQueryBuilder.returnValues opt b).
Proof.
  intros Hb.
  destruct (propsNode_run _ _ _ Hb)
    as (old & Hrun & (t & c & oi & r0 & Hold & Ht & Hc & Hoi & _)%readPutNode_inv).
  destruct (new_run (ReturnValuesNodeObj (`opt)) σ) as (rv & σ1 & Hnew1 & _ & Hrv & Hsub1).
  destruct (new_run (PutNodeObj t c oi (Some rv)) σ1)
    as (node & σ2 & Hnew2 & _ & Hnode & Hsub2).
  assert (σ ⊆ σ2) as Hsub by (by etrans).
  assert (readPutNode σ2 node
          = Some (PutNode.mk (PutNode.table (PutItemQueryBuilder.node b))
                    (PutNode.conditionExpression (PutItemQueryBuilder.node b))
                    (PutNode.item (PutItemQueryBuilder.node b))
                    (Some (ReturnValuesNode.mk (`opt))))) as Hread.
  { unfold readPutNode. rewrite Hnode.
    rewrite (readTableNode_mono _ _ _ _ Hsub Ht),
      (readExpressionNode_mono _ _ _ _ Hsub Hc),
      (readOptional_mono _ (readItemNode σ2) _ _
         (λ l y, readItemNode_mono σ σ2 l y Hsub) Hoi).
    cbn. unfold readReturnValuesNode. by rewrite (lookup_weaken _ _ _ _ Hrv Hsub2). }
  destruct (wrapNode_run _ _ _ _ _ (readBuilder_mono _ _ _ _ Hsub Hb) Hread)
    as (r & σ3 & Hrun3 & Hsub3 & Hfresh & Hr).
  exists r, σ3. split_and!.
  - unfold returnValues. rewrite (bind_run _ _ _ _ _ Hrun).
    rewrite (bind_run _ _ _ _ _ (load_run _ _ _ Hold)).
    by rewrite (bind_run _ _ _ _ _ Hnew1), (bind_run _ _ _ _ _ Hnew2).
  - by etrans.
  - by apply (lookup_weaken_None σ σ2).
  - exact Hr.
Qed.

(** Every modifying call succeeds on a readable receiver, only extends
    the store, and returns a new builder that reads as the call's value. *)
Lemma call_run σ this b c :
  readBuilder σ this = Some b →
  ∃ r σ',
    call c this σ = Some (r, σ') ∧ σ ⊆ σ' ∧ σ !! r = None ∧
    readBuilder σ' r = Some (PutItemQueryBuilder.call c b).
Proof.
  destruct c as [args|args|i|opt]; cbn [call PutItemQueryBuilder.call].
  - apply conditionExpression_run.
  - apply orConditionExpression_run.
  - apply item_run.
  - apply returnValues_run.
Qed.

(** The getter returns the same node object in an extended store. *)
Lemma propsNode_mono σ σ' this n :
  σ ⊆ σ' → propsNode this σ = Some (n, σ) → propsNode this σ' = Some (n, σ').
Proof.
  intros Hsub. unfold propsNode, builderProps, load, mbind, Heap_bind.
  destruct (σ !! this) as [o|] eqn:Hthis; [|done].
  rewrite (lookup_weaken _ _ _ _ Hthis Hsub).
  destruct o; try done. cbn.
  destruct (σ !! props) as [o|] eqn:Hprops; [|done].
  rewrite (lookup_weaken _ _ _ _ Hprops Hsub).
  destruct o; try done. cbn. by intros [= ->].
Qed.

Lemma compile_run σ this b :
  readBuilder σ this = Some b →
  compile this σ = Some (PutItemQueryBuilder.compile b, σ).
Proof.
  intros (p & Hrun & (n & Hp & Hn)%readProps_inv)%builderProps_run.
  unfold compile. rewrite (bind_run _ _ _ _ _ Hrun).
  rewrite (bind_run _ _ _ _ _ (load_run _ _ _ Hp)).
  by rewrite Hn.
Qed.

End Store_facts.

(** ** Compilation of a builder *)

(** C6. [compile] on a put-item builder is the builder's query compiler
    applied to the builder's node: the command depends on nothing else (not
    on the client), with the repository's compiler it is the compilation
    of the node's table, condition group, item and return-values selector,
    and over the object store the call leaves every object, the node
    included, as it was. *)
Theorem compile_applies_compiler (n : PutNode.t) (qc : QueryCompiler.t) :
  (∀ this : PutItemQueryBuilder.t,
     PutItemQueryBuilder.compile this
     = QueryCompiler.compile
         (PutItemQueryBuilderProps.queryCompiler (PutItemQueryBuilder.props this))
         (PutItemQueryBuilder.node this)) ∧
  (∀ client client' : DynamoDBDocumentClient.t,
     PutItemQueryBuilder.compile
       (PutItemQueryBuilder.mk (PutItemQueryBuilderProps.mk n client qc))
     = PutItemQueryBuilder.compile
         (PutItemQueryBuilder.mk (PutItemQueryBuilderProps.mk n client' qc))) ∧
  (∀ client : DynamoDBDocumentClient.t,
     let c := PutItemQueryBuilder.compile
                (PutItemQueryBuilder.mk (PutItemQueryBuilderProps.mk n client queryCompiler)) in
     c = compileOperation
           (OperationNode.mk (PutNode.table n) (PutNode.conditionExpression n)
              noUpdate (PutNode.item n) (PutNode.returnValues n)) ∧
     Command.TableName c = TableNode.table (PutNode.table n) ∧
     Command.Item c = ItemNode.item <$> PutNode.item n ∧
     Command.ReturnValues c = match PutNode.returnValues n with
                      | Some rv => ReturnValuesNode.option rv
                      | None => NONE
                      end ∧
     (Command.ConditionExpression c = None ↔ PutNode.conditionExpression n = []) ∧
     Command.UpdateExpression c = None) ∧
  (∀ this : PutItemQueryBuilder.t,
     DynamoDBDocumentClient.Attributes
       (DynamoDBDocumentClient.send
          (PutItemQueryBuilderProps.ddbClient (PutItemQueryBuilder.props this))
          (PutItemQueryBuilder.compile this))
     = PutItemQueryBuilder.execute this) ∧
  (∀ (σ : Store.store) (this : Store.loc) (b : PutItemQueryBuilder.t),
     Store.readBuilder σ this = Some b →
     Store.compile this σ = Some (PutItemQueryBuilder.compile b, σ)).
Proof.
  split_and!; try done; [|apply compile_run].
  intros client c. subst c. unfold PutItemQueryBuilder.compile. cbn.
  unfold compilePutNode, compileOperation, operationOfPutNode.
  pose proof (compileWith_fields PlaceholderTable.empty
                (OperationNode.mk (PutNode.table n) (PutNode.conditionExpression n)
                   noUpdate (PutNode.item n) (PutNode.returnValues n))) as (Ht & Hi & Hr).
  pose proof (compileWith_texts PlaceholderTable.empty
                (OperationNode.mk (PutNode.table n) (PutNode.conditionExpression n)
                   noUpdate (PutNode.item n) (PutNode.returnValues n))) as (Hc & Hu).
  split_and!; try done.
  rewrite Hc. cbn. by destruct (PutNode.conditionExpression n).
Qed.

Lemma compile_applies_compiler_witness :
  Store.readBuilder myTableStore 6%positive = Some myTableBuilder ∧
  Store.compile 6%positive myTableStore
  = Some (PutItemQueryBuilder.compile myTableBuilder, myTableStore).
Proof.
  assert (Store.readBuilder myTableStore 6%positive = Some myTableBuilder) as H
    by reflexivity.
  split; [exact H|].
  destruct (compile_applies_compiler (PutItemQueryBuilder.node myTableBuilder) queryCompiler)
    as (_ & _ & _ & _ & Hstore).
  exact (Hstore myTableStore 6%positive myTableBuilder H).
Defined.

(** C1. Every modifying call on a builder ([conditionExpression],
    [orConditionExpression], [item], [returnValues]) returns a new builder
    instance and leaves the receiver as it was: the call succeeds, every
    object of the store before the call is in the store after it unchanged,
    the returned instance is an object the store did not hold, the receiver's
    [node] getter returns the same node object holding the same value, and
    the receiver stays usable: any further call on it succeeds and yields
    what it would have yielded before. *)
Theorem modifying_call_leaves_receiver
    (σ : Store.store) (this : Store.loc) (b : PutItemQueryBuilder.t)
    (c : PutItemQueryBuilder.Call) :
  Store.readBuilder σ this = Some b →
  ∃ r σ',
    Store.call c this σ = Some (r, σ') ∧
    σ ⊆ σ' ∧
    σ !! r = None ∧
    Store.readBuilder σ' r = Some (PutItemQueryBuilder.call c b) ∧
    Store.readBuilder σ' this = Some b ∧
    (∃ n, Store.propsNode this σ = Some (n, σ) ∧
          Store.propsNode this σ' = Some (n, σ') ∧
          σ' !! n = σ !! n ∧
          Store.readPutNode σ n = Some (PutItemQueryBuilder.node b) ∧
          Store.readPutNode σ' n = Some (PutItemQueryBuilder.node b)) ∧
    (∀ c', ∃ r2 σ2,
       Store.call c' this σ' = Some (r2, σ2) ∧
       Store.readBuilder σ2 r2 = Some (PutItemQueryBuilder.call c' b)).
Proof.
  intros Hb.
  destruct (call_run σ this b c Hb) as (r & σ' & Hrun & Hsub & Hfresh & Hr).
  pose proof (readBuilder_mono _ _ _ _ Hsub Hb) as Hb'.
  exists r, σ'. split_and!; try done.
  - destruct (propsNode_run _ _ _ Hb) as (n & Hn & Hread).
    exists n. split_and!; try done.
    + by apply (propsNode_mono σ).
    + apply readPutNode_inv in Hread as (t & ce & i & rv & Hl & _).
      by rewrite Hl, (lookup_weaken _ _ _ _ Hl Hsub).
    + by apply (readPutNode_mono σ).
  - intros c'.
    destruct (call_run σ' this b c' Hb') as (r2 & σ2 & Hrun2 & _ & _ & Hr2).
    by exists r2, σ2.
Qed.

Lemma modifying_call_leaves_receiver_witness :
  Store.readBuilder myTableStore 6%positive = Some myTableBuilder ∧
  ∃ r σ',
    Store.call (PutItemQueryBuilder.CallReturnValues optALL_OLD) 6%positive myTableStore
      = Some (r, σ') ∧
    myTableStore ⊆ σ' ∧
    myTableStore !! r = None ∧
    Store.readBuilder σ' r
      = Some (PutItemQueryBuilder.call
                (PutItemQueryBuilder.CallReturnValues optALL_OLD) myTableBuilder) ∧
    Store.readBuilder σ' 6%positive = Some myTableBuilder.
Proof.
  assert (Store.readBuilder myTableStore 6%positive = Some myTableBuilder) as H
    by reflexivity.
  split; [exact H|].
  destruct (modifying_call_leaves_receiver myTableStore 6%positive myTableBuilder
              (PutItemQueryBuilder.CallReturnValues optALL_OLD) H)
    as (r & σ' & H1 & H2 & H3 & H4 & H5 & _).
  exists r, σ'. repeat split; assumption.
Defined.

(** The same call, evaluated: the data objects it adds to the store. *)
Example returnValues_on_myTableStore :
  Store.call (PutItemQueryBuilder.CallReturnValues optALL_OLD) 6%positive myTableStore
  = Some (10%positive,
          <[ 10%positive := Store.PutItemQueryBuilderObj 9 ]>
            (<[ 9%positive := Store.PutItemQueryBuilderPropsObj 8 silentClient queryCompiler ]>
               (<[ 8%positive := Store.PutNodeObj 1 3 None (Some 7%positive) ]>
                  (<[ 7%positive := Store.ReturnValuesNodeObj ALL_OLD ]> myTableStore)))).
Proof. reflexivity. Qed.

(** A condition call, evaluated: the last object it adds is the new
    builder; the receiver at location 6 reads as before. *)
Example conditionExpression_on_myTableStore :
  let run := Store.call
               (PutItemQueryBuilder.CallConditionExpression
                  (ExpressionBuilder.ComparatorExprArg "userId" CmpEq (AVString "abc")))
               6%positive myTableStore in
  fst <$> run = Some 16%positive ∧
  (run ≫= λ r, Store.readBuilder r.2 r.1)
    = Some (PutItemQueryBuilder.conditionExpression
              (ExpressionBuilder.ComparatorExprArg "userId" CmpEq (AVString "abc"))
              myTableBuilder) ∧
  (run ≫= λ r, Store.readBuilder r.2 6%positive) = Some myTableBuilder.
Proof. split_and!; reflexivity. Qed.

(** * Further properties of the put-item builder *)

(** ** How the setters compose *)

(** Setters that write different fields of the node commute: the order in
    which [item], [returnValues] and a condition call are made does not
    matter to the builder they end in. *)
Theorem setters_on_different_fields_commute
    (this : PutItemQueryBuilder.t) (i : Item) (opt : Extract [NONE; ALL_OLD])
    (args : ExpressionBuilder.ExprArgs) :
  PutItemQueryBuilder.item i (PutItemQueryBuilder.returnValues opt this)
    = PutItemQueryBuilder.returnValues opt (PutItemQueryBuilder.item i this) ∧
  PutItemQueryBuilder.item i (PutItemQueryBuilder.conditionExpression args this)
    = PutItemQueryBuilder.conditionExpression args (PutItemQueryBuilder.item i this) ∧
  PutItemQueryBuilder.item i (PutItemQueryBuilder.orConditionExpression args this)
    = PutItemQueryBuilder.orConditionExpression args (PutItemQueryBuilder.item i this) ∧
  PutItemQueryBuilder.returnValues opt (PutItemQueryBuilder.conditionExpression args this)
    = PutItemQueryBuilder.conditionExpression args
        (PutItemQueryBuilder.returnValues opt this) ∧
  PutItemQueryBuilder.returnValues opt (PutItemQueryBuilder.orConditionExpression args this)
    = PutItemQueryBuilder.orConditionExpression args
        (PutItemQueryBuilder.returnValues opt this).
Proof. destruct this as [[[tbl cond it rv] client qc]]. by split_and!. Qed.

(** [item] and [returnValues] overwrite: a second call replaces what the
    first stored, payloads are not merged, and the builder is the one a
    single call with the second argument gives. *)
Theorem item_and_returnValues_overwrite
    (this : PutItemQueryBuilder.t) (i1 i2 : Item) (o1 o2 : Extract [NONE; ALL_OLD]) :
  PutItemQueryBuilder.item i2 (PutItemQueryBuilder.item i1 this)
    = PutItemQueryBuilder.item i2 this ∧
  PutItemQueryBuilder.returnValues o2 (PutItemQueryBuilder.returnValues o1 this)
    = PutItemQueryBuilder.returnValues o2 this ∧
  PutNode.item
    (PutItemQueryBuilder.node
       (PutItemQueryBuilder.item i2 (PutItemQueryBuilder.item i1 this)))
    = Some (ItemNode.mk i2).
Proof. destruct this as [[[tbl cond it rv] client qc]]. by split_and!. Qed.

(** ** What a chain of calls ends in *)

Lemma lastItem_snoc cs c :
  lastItem (cs ++ [c]) =
    match c with
    | PutItemQueryBuilder.CallItem i => Some i
    | _ => lastItem cs
    end.
Proof.
  unfold lastItem. rewrite omap_app.
  destruct c; cbn; by rewrite ?app_nil_r, ?last_snoc.
Qed.

Lemma lastReturnValues_snoc cs c :
  lastReturnValues (cs ++ [c]) =
    match c with
    | PutItemQueryBuilder.CallReturnValues opt => Some (`opt)
    | _ => lastReturnValues cs
    end.
Proof.
  unfold lastReturnValues. rewrite omap_app.
  destruct c; cbn; by rewrite ?app_nil_r, ?last_snoc.
Qed.

(** Through every chain of modifying calls the builder stays on the table,
    the client and the compiler of the builder the chain started from. *)
Theorem chain_keeps_table_and_collaborators
    (cs : list PutItemQueryBuilder.Call) (this : PutItemQueryBuilder.t) :
  PutNode.table (PutItemQueryBuilder.node (PutItemQueryBuilder.chain cs this))
    = PutNode.table (PutItemQueryBuilder.node this) ∧
  PutItemQueryBuilderProps.ddbClient
    (PutItemQueryBuilder.props (PutItemQueryBuilder.chain cs this))
    = PutItemQueryBuilderProps.ddbClient (PutItemQueryBuilder.props this) ∧
  PutItemQueryBuilderProps.queryCompiler
    (PutItemQueryBuilder.props (PutItemQueryBuilder.chain cs this))
    = PutItemQueryBuilderProps.queryCompiler (PutItemQueryBuilder.props this).
Proof.
  induction cs as [|c cs (IHt & IHc & IHq)] using rev_ind; [done|].
  rewrite chain_snoc. rewrite <- IHt, <- IHc, <- IHq. by destruct c.
Qed.

(** After a chain of calls the node holds the payload of the last [item]
    call and the selector of the last [returnValues] call; with no such call
    in the chain it holds what the receiver held. *)
Theorem chain_holds_last_item_and_returnValues
    (cs : list PutItemQueryBuilder.Call) (this : PutItemQueryBuilder.t) :
  PutNode.item (PutItemQueryBuilder.node (PutItemQueryBuilder.chain cs this))
    = match lastItem cs with
      | Some i => Some (ItemNode.mk i)
      | None => PutNode.item (PutItemQueryBuilder.node this)
      end ∧
  PutNode.returnValues (PutItemQueryBuilder.node (PutItemQueryBuilder.chain cs this))
    = match lastReturnValues cs with
      | Some o => Some (ReturnValuesNode.mk o)
      | None => PutNode.returnValues (PutItemQueryBuilder.node this)
      end.
Proof.
  induction cs as [|c cs [IHi IHr]] using rev_ind; [done|].
  rewrite chain_snoc, lastItem_snoc, lastReturnValues_snoc.
  destruct c;
    (split; [first [exact IHi|reflexivity]|first [exact IHr|reflexivity]]).
Qed.

Lemma ExpressionBuilder_mk_getNode (eB : ExpressionBuilder.t) :
  ExpressionBuilder.mk (ExpressionBuilder._getNode eB) = eB.
Proof. by destruct eB. Qed.

Lemma foldl_conditionCall_filter cs (eB : ExpressionBuilder.t) :
  foldl (λ e c, conditionCall c e) eB (filter isConditionCall cs)
  = foldl (λ e c, conditionCall c e) eB cs.
Proof.
  revert eB. induction cs as [|c cs IH]; intros eB; [done|].
  destruct c; cbn; rewrite ?filter_cons; cbn; apply IH.
Qed.

Lemma call_conditionExpression c (this : PutItemQueryBuilder.t) :
  PutNode.conditionExpression (PutItemQueryBuilder.node (PutItemQueryBuilder.call c this))
  = ExpressionBuilder._getNode
      (conditionCall c
         (ExpressionBuilder.mk
            (PutNode.conditionExpression (PutItemQueryBuilder.node this)))).
Proof. by destruct c. Qed.

Lemma chain_conditionExpression cs (this : PutItemQueryBuilder.t) :
  PutNode.conditionExpression
    (PutItemQueryBuilder.node (PutItemQueryBuilder.chain cs this))
  = ExpressionBuilder._getNode
      (foldl (λ e c, conditionCall c e)
         (ExpressionBuilder.mk
            (PutNode.conditionExpression (PutItemQueryBuilder.node this))) cs).
Proof.
  induction cs as [|c cs IH] using rev_ind; [done|].
  rewrite chain_snoc, foldl_app. cbn [foldl].
  by rewrite call_conditionExpression, IH, ExpressionBuilder_mk_getNode.
Qed.

(** The condition group a chain ends in is the work of its condition calls
    alone, in call order: each is handed to the expression builder on the
    group the previous one left, and [item] and [returnValues] calls in
    between change nothing of it. *)
Theorem chain_condition_is_its_condition_calls
    (cs : list PutItemQueryBuilder.Call) (this : PutItemQueryBuilder.t) :
  PutNode.conditionExpression
    (PutItemQueryBuilder.node (PutItemQueryBuilder.chain cs this))
  = ExpressionBuilder._getNode
      (foldl (λ e c, conditionCall c e)
         (ExpressionBuilder.mk
            (PutNode.conditionExpression (PutItemQueryBuilder.node this))) cs) ∧
  PutNode.conditionExpression
    (PutItemQueryBuilder.node (PutItemQueryBuilder.chain cs this))
  = PutNode.conditionExpression
      (PutItemQueryBuilder.node
         (PutItemQueryBuilder.chain (filter isConditionCall cs) this)).
Proof.
  split; [apply chain_conditionExpression|].
  by rewrite !chain_conditionExpression, foldl_conditionCall_filter.
Qed.

(** [execute] on a builder a chain ended in sends the command to the client
    of the builder the chain started from, compiled by that builder's
    compiler from the node the chain ended in, and returns the [Attributes]
    of the answer. *)
Theorem execute_after_chain
    (cs : list PutItemQueryBuilder.Call) (this : PutItemQueryBuilder.t) :
  PutItemQueryBuilder.execute (PutItemQueryBuilder.chain cs this)
  = DynamoDBDocumentClient.Attributes
      (DynamoDBDocumentClient.send
         (PutItemQueryBuilderProps.ddbClient (PutItemQueryBuilder.props this))
         (QueryCompiler.compile
            (PutItemQueryBuilderProps.queryCompiler (PutItemQueryBuilder.props this))
            (PutItemQueryBuilder.node (PutItemQueryBuilder.chain cs this)))).
Proof.
  unfold PutItemQueryBuilder.execute, PutItemQueryBuilder.compile.
  assert (∀ cs, PutItemQueryBuilderProps.ddbClient
                  (PutItemQueryBuilder.props (PutItemQueryBuilder.chain cs this))
                = PutItemQueryBuilderProps.ddbClient (PutItemQueryBuilder.props this))
    as Hclient.
  { clear cs. intros cs. induction cs as [|c cs IH] using rev_ind; [done|].
    rewrite chain_snoc. by rewrite (proj1 (call_collaborators _ _)). }
  by rewrite chain_queryCompiler, Hclient.
Qed.

(** ** Calls on one receiver, and chains, over the object store *)

Section Store_chains.
Import Store.
Implicit Types (σ : store) (l : loc).

Lemma readBuilder_lookup σ l b : readBuilder σ l = Some b → is_Some (σ !! l).
Proof. intros (p & Hl & _)%readBuilder_inv. eauto. Qed.

Lemma storeChain_run cs : ∀ σ this b,
  readBuilder σ this = Some b →
  ∃ rs σ',
    storeChain cs this σ = Some (rs, σ') ∧ σ ⊆ σ' ∧
    length rs = length cs ∧
    (∀ k r, rs !! k = Some r →
       σ !! r = None ∧
       readBuilder σ' r = Some (PutItemQueryBuilder.chain (take (S k) cs) b)) ∧
    NoDup rs.
Proof.
  induction cs as [|c cs IH]; intros σ this b Hb.
  - exists [], σ. split_and!; [done|done|done| |apply NoDup_nil_2].
    intros k r Hk. by rewrite lookup_nil in Hk.
  - destruct (call_run σ this b c Hb) as (r & σ1 & Hrun & Hsub1 & Hfresh & Hr).
    destruct (IH σ1 r _ Hr) as (rs & σ' & Hruns & Hsub & Hlen & Hrs & Hnodup).
    exists (r :: rs), σ'. split_and!.
    + cbn [storeChain]. rewrite (bind_run _ _ _ _ _ Hrun).
      by rewrite (bind_run _ _ _ _ _ Hruns).
    + by etrans.
    + cbn. by rewrite Hlen.
    + intros [|k] r' Hk; cbn in Hk.
      * injection Hk as <-. split; [done|].
        by apply (readBuilder_mono σ1).
      * destruct (Hrs k r' Hk) as [Hnone Hread]. split; [|done].
        by apply (lookup_weaken_None σ σ1).
    + constructor; [|done].
      intros (k & Hk)%list_elem_of_lookup_1.
      destruct (Hrs k r Hk) as [Hnone _].
      apply readBuilder_lookup in Hr as [o Ho]. congruence.
Qed.

End Store_chains.

(** Every builder a chain returns stays what it was: over the object store
    a chain of calls succeeds, only extends the store, returns one new
    builder instance per call, all distinct, and in the store the chain ends
    in each of them still reads as the value its prefix of the chain
    denotes, and the receiver as the value it had. *)
Theorem chain_keeps_every_builder
    (cs : list PutItemQueryBuilder.Call) (σ : Store.store) (this : Store.loc)
    (b : PutItemQueryBuilder.t) :
  Store.readBuilder σ this = Some b →
  ∃ rs σ',
    storeChain cs this σ = Some (rs, σ') ∧
    σ ⊆ σ' ∧
    length rs = length cs ∧
    NoDup rs ∧
    (∀ k r, rs !! k = Some r →
       σ !! r = None ∧
       Store.readBuilder σ' r = Some (PutItemQueryBuilder.chain (take (S k) cs) b)) ∧
    Store.readBuilder σ' this = Some b.
Proof.
  intros Hb.
  destruct (storeChain_run cs σ this b Hb) as (rs & σ' & Hrun & Hsub & Hlen & Hrs & Hnodup).
  exists rs, σ'. split_and!; try done.
  by apply (readBuilder_mono σ).
Qed.

Lemma chain_keeps_every_builder_witness :
  Store.readBuilder myTableStore 6%positive = Some myTableBuilder ∧
  ∃ rs σ',
    storeChain
      [PutItemQueryBuilder.CallItem {[ "userId" := AVString "333" ]};
       PutItemQueryBuilder.CallReturnValues optALL_OLD]
      6%positive myTableStore = Some (rs, σ') ∧
    length rs = 2 ∧
    Store.readBuilder σ' 6%positive = Some myTableBuilder.
Proof.
  assert (Store.readBuilder myTableStore 6%positive = Some myTableBuilder) as H
    by reflexivity.
  split; [exact H|].
  destruct (chain_keeps_every_builder
              [PutItemQueryBuilder.CallItem {[ "userId" := AVString "333" ]};
               PutItemQueryBuilder.CallReturnValues optALL_OLD]
              myTableStore 6%positive myTableBuilder H)
    as (rs & σ' & H1 & _ & H3 & _ & _ & H6).
  exists rs, σ'. repeat split; assumption.
Defined.

(** A base builder used as a template: two calls made on the same receiver
    succeed and return two distinct new instances, neither of them the
    receiver; in the resulting store each reads as its own call on the
    receiver's value, the second call having changed nothing of the first
    result, and the receiver still reads and compiles as before. *)
Theorem template_branches_are_independent
    (c1 c2 : PutItemQueryBuilder.Call) (σ : Store.store) (this : Store.loc)
    (b : PutItemQueryBuilder.t) :
  Store.readBuilder σ this = Some b →
  ∃ r1 r2 σ',
    storeBranch c1 c2 this σ = Some ((r1, r2), σ') ∧
    σ ⊆ σ' ∧
    r1 ≠ r2 ∧ r1 ≠ this ∧ r2 ≠ this ∧
    Store.readBuilder σ' r1 = Some (PutItemQueryBuilder.call c1 b) ∧
    Store.readBuilder σ' r2 = Some (PutItemQueryBuilder.call c2 b) ∧
    Store.readBuilder σ' this = Some b ∧
    Store.compile this σ' = Some (PutItemQueryBuilder.compile b, σ').
Proof.
  intros Hb.
  destruct (call_run σ this b c1 Hb) as (r1 & σ1 & Hrun1 & Hsub1 & Hfresh1 & Hr1).
  pose proof (readBuilder_mono _ _ _ _ Hsub1 Hb) as Hb1.
  destruct (call_run σ1 this b c2 Hb1) as (r2 & σ2 & Hrun2 & Hsub2 & Hfresh2 & Hr2).
  pose proof (readBuilder_mono _ _ _ _ Hsub2 Hb1) as Hb2.
  destruct (readBuilder_lookup _ _ _ Hb) as [o Ho].
  destruct (readBuilder_lookup _ _ _ Hb1) as [o1 Ho1].
  destruct (readBuilder_lookup _ _ _ Hr1) as [o' Ho'].
  exists r1, r2, σ2. split_and!.
  - unfold storeBranch. rewrite (bind_run _ _ _ _ _ Hrun1).
    by rewrite (bind_run _ _ _ _ _ Hrun2).
  - by etrans.
  - congruence.
  - congruence.
  - congruence.
  - by apply (readBuilder_mono σ1).
  - exact Hr2.
  - exact Hb2.
  - by apply compile_run.
Qed.

Lemma template_branches_are_independent_witness :
  Store.readBuilder myTableStore 6%positive = Some myTableBuilder ∧
  ∃ r1 r2 σ',
    storeBranch
      (PutItemQueryBuilder.CallReturnValues optALL_OLD)
      (PutItemQueryBuilder.CallReturnValues optNONE)
      6%positive myTableStore = Some ((r1, r2), σ') ∧
    r1 ≠ r2 ∧
    Store.readBuilder σ' r1
      = Some (PutItemQueryBuilder.returnValues optALL_OLD myTableBuilder) ∧
    Store.readBuilder σ' r2
      = Some (PutItemQueryBuilder.returnValues optNONE myTableBuilder).
Proof.
  assert (Store.readBuilder myTableStore 6%positive = Some myTableBuilder) as H
    by reflexivity.
  split; [exact H|].
  destruct (template_branches_are_independent
              (PutItemQueryBuilder.CallReturnValues optALL_OLD)
              (PutItemQueryBuilder.CallReturnValues optNONE)
              myTableStore 6%positive myTableBuilder H)
    as (r1 & r2 & σ' & H1 & _ & H3 & _ & _ & H6 & H7 & _).
  exists r1, r2, σ'. repeat split; assumption.
Defined.

(** ** What a new builder shares with its receiver *)

Section Store_sharing.
Import Store.
Implicit Types (σ : store) (l : loc).

Lemma new_insert o σ : ∃ l, new o σ = Some (l, <[l := o]> σ) ∧ σ !! l = None.
Proof.
  exists (fresh (dom σ)). split; [done|]. apply not_elem_of_dom, is_fresh.
Qed.

Lemma lookup_insert_fresh σ l o l' o' :
  σ !! l' = Some o' → σ !! l = None → <[l := o]> σ !! l' = Some o'.
Proof. intros Hl' Hl. rewrite lookup_insert_ne; [done|congruence]. Qed.

Lemma propsNode_lookup σ r p n c q :
  σ !! r = Some (PutItemQueryBuilderObj p) →
  σ !! p = Some (PutItemQueryBuilderPropsObj n c q) →
  propsNode r σ = Some (n, σ).
Proof.
  intros Hr Hp. unfold propsNode, builderProps.
  rewrite (bind_run _ _ _ _ _ (bind_run _ _ _ _ _ (load_run _ _ _ Hr))).
  cbn [mret Heap_ret].
  by rewrite (bind_run _ _ _ _ _ (load_run _ _ _ Hp)).
Qed.

Lemma nodeObject_intro σ r p n c q o :
  σ !! r = Some (PutItemQueryBuilderObj p) →
  σ !! p = Some (PutItemQueryBuilderPropsObj n c q) →
  σ !! n = Some o →
  nodeObject σ r = Some o.
Proof.
  intros Hr Hp Hn. unfold nodeObject.
  by rewrite (propsNode_lookup _ _ _ _ _ _ Hr Hp).
Qed.

(** The objects a readable builder is made of. *)
Lemma readBuilder_objects σ this b :
  readBuilder σ this = Some b →
  ∃ p n t ce oi orv,
    σ !! this = Some (PutItemQueryBuilderObj p) ∧
    σ !! p = Some (PutItemQueryBuilderPropsObj n
                     (PutItemQueryBuilderProps.ddbClient (PutItemQueryBuilder.props b))
                     (PutItemQueryBuilderProps.queryCompiler (PutItemQueryBuilder.props b))) ∧
    σ !! n = Some (PutNodeObj t ce oi orv).
Proof.
  intros (p & Hthis & (n & Hp & (t & ce & oi & orv & Hn & _)%readPutNode_inv)%readProps_inv)
    %readBuilder_inv.
  eauto 10.
Qed.

(** The new node wrapped in new props and a new builder, with the store
    that results. *)
Lemma wrapNode_insert σ this p n c q node :
  σ !! this = Some (PutItemQueryBuilderObj p) →
  σ !! p = Some (PutItemQueryBuilderPropsObj n c q) →
  ∃ p' r,
    (props ← spreadPropsWithNode this node; newPutItemQueryBuilder props) σ
      = Some (r, <[r := PutItemQueryBuilderObj p']>
                   (<[p' := PutItemQueryBuilderPropsObj node c q]> σ)) ∧
    σ !! p' = None ∧
    <[p' := PutItemQueryBuilderPropsObj node c q]> σ !! r = None.
Proof.
  intros Hthis Hp.
  destruct (new_insert (PutItemQueryBuilderPropsObj node c q) σ) as (p' & Hnew1 & Hp').
  destruct (new_insert (PutItemQueryBuilderObj p')
              (<[p' := PutItemQueryBuilderPropsObj node c q]> σ)) as (r & Hnew2 & Hr).
  exists p', r. split_and!; [|done|done].
  assert (spreadPropsWithNode this node σ
          = Some (p', <[p' := PutItemQueryBuilderPropsObj node c q]> σ)) as Hspread.
  { unfold spreadPropsWithNode, builderProps.
    rewrite (bind_run _ _ _ _ _ (bind_run _ _ _ _ _ (load_run _ _ _ Hthis))).
    cbn [mret Heap_ret].
    by rewrite (bind_run _ _ _ _ _ (load_run _ _ _ Hp)). }
  by rewrite (bind_run _ _ _ _ _ Hspread).
Qed.

(** The node object of the builder [wrapNode_insert] returns. *)
Lemma wrapNode_nodeObject σ p' r c q node o :
  σ !! node = Some o →
  σ !! p' = None →
  <[p' := PutItemQueryBuilderPropsObj node c q]> σ !! r = None →
  nodeObject (<[r := PutItemQueryBuilderObj p']>
                (<[p' := PutItemQueryBuilderPropsObj node c q]> σ)) r = Some o.
Proof.
  intros Hnode Hp' Hr.
  apply (nodeObject_intro _ r p' node c q).
  - apply lookup_insert_eq.
  - apply lookup_insert_fresh; [apply lookup_insert_eq|done].
  - apply lookup_insert_fresh; [|done]. by apply lookup_insert_fresh.
Qed.

Lemma item_shallow σ this b i :
  readBuilder σ this = Some b →
  ∃ r σ' t ce oi orv li,
    item i this σ = Some (r, σ') ∧
    nodeObject σ this = Some (PutNodeObj t ce oi orv) ∧
    nodeObject σ' r = Some (PutNodeObj t ce (Some li) orv) ∧
    σ !! li = None ∧ σ' !! li = Some (ItemNodeObj i).
Proof.
  intros (p & n & t & ce & oi & orv & Hthis & Hp & Hn)%readBuilder_objects.
  destruct (new_insert (ItemNodeObj i) σ) as (li & Hnew1 & Hli).
  set (σ1 := <[li := ItemNodeObj i]> σ) in *.
  destruct (new_insert (PutNodeObj t ce (Some li) orv) σ1) as (n' & Hnew2 & Hn').
  set (σ2 := <[n' := PutNodeObj t ce (Some li) orv]> σ1) in *.
  assert (σ2 !! this = Some (PutItemQueryBuilderObj p)) as Hthis2
    by (by do 2 (apply lookup_insert_fresh; [|done])).
  assert (σ2 !! p = Some (PutItemQueryBuilderPropsObj n
                            (PutItemQueryBuilderProps.ddbClient (PutItemQueryBuilder.props b))
                            (PutItemQueryBuilderProps.queryCompiler
                               (PutItemQueryBuilder.props b)))) as Hp2
    by (by do 2 (apply lookup_insert_fresh; [|done])).
  destruct (wrapNode_insert σ2 this p n _ _ n' Hthis2 Hp2) as (p' & r & Hwrap & Hp' & Hr).
  eexists r, _, t, ce, oi, orv, li. split_and!.
  - unfold item.
    rewrite (bind_run _ _ _ _ _ (propsNode_lookup _ _ _ _ _ _ Hthis Hp)).
    rewrite (bind_run _ _ _ _ _ (load_run _ _ _ Hn)).
    rewrite (bind_run _ _ _ _ _ Hnew1), (bind_run _ _ _ _ _ Hnew2).
    exact Hwrap.
  - exact (nodeObject_intro _ _ _ _ _ _ _ Hthis Hp Hn).
  - apply wrapNode_nodeObject; [apply lookup_insert_eq|done|done].
  - exact Hli.
  - do 2 (apply lookup_insert_fresh; [|done]).
    apply lookup_insert_fresh; [apply lookup_insert_eq|done].
Qed.

Lemma returnValues_shallow σ this b opt :
  readBuilder σ this = Some b →
  ∃ r σ' t ce oi orv lr,
    returnValues opt this σ = Some (r, σ') ∧
    nodeObject σ this = Some (PutNodeObj t ce oi orv) ∧
    nodeObject σ' r = Some (PutNodeObj t ce oi (Some lr)) ∧
    σ !! lr = None ∧ σ' !! lr = Some (ReturnValuesNodeObj (`opt)).
Proof.
  intros (p & n & t & ce & oi & orv & Hthis & Hp & Hn)%readBuilder_objects.
  destruct (new_insert (ReturnValuesNodeObj (`opt)) σ) as (lr & Hnew1 & Hlr).
  set (σ1 := <[lr := ReturnValuesNodeObj (`opt)]> σ) in *.
  destruct (new_insert (PutNodeObj t ce oi (Some lr)) σ1) as (n' & Hnew2 & Hn').
  set (σ2 := <[n' := PutNodeObj t ce oi (Some lr)]> σ1) in *.
  assert (σ2 !! this = Some (PutItemQueryBuilderObj p)) as Hthis2
    by (by do 2 (apply lookup_insert_fresh; [|done])).
  assert (σ2 !! p = Some (PutItemQueryBuilderPropsObj n
                            (PutItemQueryBuilderProps.ddbClient (PutItemQueryBuilder.props b))
                            (PutItemQueryBuilderProps.queryCompiler
                               (PutItemQueryBuilder.props b)))) as Hp2
    by (by do 2 (apply lookup_insert_fresh; [|done])).
  destruct (wrapNode_insert σ2 this p n _ _ n' Hthis2 Hp2) as (p' & r & Hwrap & Hp' & Hr).
  eexists r, _, t, ce, oi, orv, lr. split_and!.
  - unfold returnValues.
    rewrite (bind_run _ _ _ _ _ (propsNode_lookup _ _ _ _ _ _ Hthis Hp)).
    rewrite (bind_run _ _ _ _ _ (load_run _ _ _ Hn)).
    rewrite (bind_run _ _ _ _ _ Hnew1), (bind_run _ _ _ _ _ Hnew2).
    exact Hwrap.
  - exact (nodeObject_intro _ _ _ _ _ _ _ Hthis Hp Hn).
  - apply wrapNode_nodeObject; [apply lookup_insert_eq|done|done].
  - exact Hlr.
  - do 2 (apply lookup_insert_fresh; [|done]).
    apply lookup_insert_fresh; [apply lookup_insert_eq|done].
Qed.

Lemma withExpression_shallow σ this b joinType args :
  readBuilder σ this = Some b →
  ∃ r σ' t ce oi orv ce',
    (copy ← spreadConditionExpression this;
     eB ← newExpressionBuilder copy;
     eB' ← _expression joinType args eB;
     expressionNode ← _getNode eB';
     node ← spreadNodeWithConditionExpression this expressionNode;
     props ← spreadPropsWithNode this node;
     newPutItemQueryBuilder props) σ = Some (r, σ') ∧
    nodeObject σ this = Some (PutNodeObj t ce oi orv) ∧
    nodeObject σ' r = Some (PutNodeObj t ce' oi orv) ∧
    ce' ≠ ce.
Proof.
  intros Hb.
  destruct (readBuilder_inv _ _ _ Hb)
    as (p & Hthis & (n & Hp & (t & ce & oi & orv & Hn & _ & Hce & _)%readPutNode_inv)
          %readProps_inv).
  destruct (spreadConditionExpression_run _ _ _ Hb) as (copy & σ1 & Hrun1 & Hsub1 & Hcopy).
  destruct (newExpressionBuilder_run _ _ _ Hcopy) as (eB & σ2 & Hrun2 & Hsub2 & HeB).
  destruct (_expression_run _ _ _ joinType args HeB) as (eB' & σ3 & Hrun3 & Hsub3 & HeB').
  destruct (expressionBuilderNode_run _ _ _ HeB') as (en & Hrun4 & Hen).
  assert (σ ⊆ σ3) as Hsub by (etrans; [exact Hsub1|]; by etrans).
  pose proof (lookup_weaken _ _ _ _ Hthis Hsub) as Hthis3.
  pose proof (lookup_weaken _ _ _ _ Hp Hsub) as Hp3.
  pose proof (lookup_weaken _ _ _ _ Hn Hsub) as Hn3.
  destruct (new_insert (PutNodeObj t en oi orv) σ3) as (n' & Hnew & Hn').
  set (σ4 := <[n' := PutNodeObj t en oi orv]> σ3) in *.
  assert (σ4 !! this = Some (PutItemQueryBuilderObj p)) as Hthis4
    by (by apply lookup_insert_fresh).
  assert (σ4 !! p = Some (PutItemQueryBuilderPropsObj n
                            (PutItemQueryBuilderProps.ddbClient (PutItemQueryBuilder.props b))
                            (PutItemQueryBuilderProps.queryCompiler
                               (PutItemQueryBuilder.props b)))) as Hp4
    by (by apply lookup_insert_fresh).
  destruct (wrapNode_insert σ4 this p n _ _ n' Hthis4 Hp4) as (p' & r & Hwrap & Hp' & Hr).
  eexists r, _, t, ce, oi, orv, en. split_and!.
  - rewrite (bind_run _ _ _ _ _ Hrun1), (bind_run _ _ _ _ _ Hrun2),
      (bind_run _ _ _ _ _ Hrun3).
    unfold _getNode. rewrite (bind_run _ _ _ _ _ Hrun4).
    assert (spreadNodeWithConditionExpression this en σ3 = Some (n', σ4)) as Hspread.
    { unfold spreadNodeWithConditionExpression.
      rewrite (bind_run _ _ _ _ _ (propsNode_lookup _ _ _ _ _ _ Hthis3 Hp3)).
      by rewrite (bind_run _ _ _ _ _ (load_run _ _ _ Hn3)). }
    rewrite (bind_run _ _ _ _ _ Hspread). exact Hwrap.
  - exact (nodeObject_intro _ _ _ _ _ _ _ Hthis Hp Hn).
  - apply wrapNode_nodeObject; [apply lookup_insert_eq|done|done].
  - intros ->.
    pose proof (readExpressionNode_mono _ _ _ _ Hsub Hce) as Hce3.
    rewrite Hce3 in Hen. injection Hen as Hen.
    apply (f_equal length) in Hen. cbn in Hen.
    rewrite length_app in Hen. cbn in Hen.
    unfold PutItemQueryBuilder.node in Hen. lia.
Qed.

End Store_sharing.

(** The setters copy shallowly.  Over the object store, the node object of
    the builder a call returns holds the very table object of the receiver's
    node and, in each field the call does not write, the very object the
    receiver's node holds there; the field the call writes holds another
    object: for [item] an item node that did not exist before the call,
    for [returnValues] a return-values node that did not exist before the
    call, for a condition call a condition node other than the
    receiver's. *)
Theorem setters_copy_shallowly
    (c : PutItemQueryBuilder.Call) (σ : Store.store) (this : Store.loc)
    (b : PutItemQueryBuilder.t) :
  Store.readBuilder σ this = Some b →
  ∃ r σ' t ce oi orv ce' oi' orv',
    Store.call c this σ = Some (r, σ') ∧
    nodeObject σ this = Some (Store.PutNodeObj t ce oi orv) ∧
    nodeObject σ' r = Some (Store.PutNodeObj t ce' oi' orv') ∧
    match c with
    | PutItemQueryBuilder.CallItem i =>
        ce' = ce ∧ orv' = orv ∧
        (∃ li, oi' = Some li ∧ σ !! li = None ∧ σ' !! li = Some (Store.ItemNodeObj i))
    | PutItemQueryBuilder.CallReturnValues opt =>
        ce' = ce ∧ oi' = oi ∧
        (∃ lr, orv' = Some lr ∧ σ !! lr = None ∧
               σ' !! lr = Some (Store.ReturnValuesNodeObj (`opt)))
    | _ => ce' ≠ ce ∧ oi' = oi ∧ orv' = orv
    end.
Proof.
  intros Hb. destruct c as [args|args|i|opt].
  - destruct (withExpression_shallow σ this b AND args Hb)
      as (r & σ' & t & ce & oi & orv & ce' & Hrun & Hn & Hn' & Hne).
    by exists r, σ', t, ce, oi, orv, ce', oi, orv.
  - destruct (withExpression_shallow σ this b OR args Hb)
      as (r & σ' & t & ce & oi & orv & ce' & Hrun & Hn & Hn' & Hne).
    by exists r, σ', t, ce, oi, orv, ce', oi, orv.
  - destruct (item_shallow σ this b i Hb)
      as (r & σ' & t & ce & oi & orv & li & Hrun & Hn & Hn' & Hli & Hli').
    exists r, σ', t, ce, oi, orv, ce, (Some li), orv.
    split_and!; try done. by exists li.
  - destruct (returnValues_shallow σ this b opt Hb)
      as (r & σ' & t & ce & oi & orv & lr & Hrun & Hn & Hn' & Hlr & Hlr').
    exists r, σ', t, ce, oi, orv, ce, oi, (Some lr).
    split_and!; try done. by exists lr.
Qed.

Lemma setters_copy_shallowly_witness :
  Store.readBuilder myTableStore 6%positive = Some myTableBuilder ∧
  ∃ r σ' t ce oi orv ce' oi' orv',
    Store.call (PutItemQueryBuilder.CallItem {[ "userId" := AVString "333" ]})
      6%positive myTableStore = Some (r, σ') ∧
    nodeObject myTableStore 6%positive = Some (Store.PutNodeObj t ce oi orv) ∧
    nodeObject σ' r = Some (Store.PutNodeObj t ce' oi' orv') ∧
    ce' = ce ∧ orv' = orv ∧
    ∃ li, oi' = Some li ∧ myTableStore !! li = None ∧
          σ' !! li = Some (Store.ItemNodeObj {[ "userId" := AVString "333" ]}).
Proof.
  assert (Store.readBuilder myTableStore 6%positive = Some myTableBuilder) as H
    by reflexivity.
  split; [exact H|].
  destruct (setters_copy_shallowly
              (PutItemQueryBuilder.CallItem {[ "userId" := AVString "333" ]})
              myTableStore 6%positive myTableBuilder H)
    as (r & σ' & t & ce & oi & orv & ce' & oi' & orv' & H1 & H2 & H3 & H4 & H5 & H6).
  exists r, σ', t, ce, oi, orv, ce', oi', orv'. split_and!; assumption.
Defined.

(** ** The selector a chain compiles to *)

(** Compiling the builder a chain ends in yields the selector of the last
    [returnValues] call of the chain; with no such call, the selector the
    receiver's node held, and NONE if it held none; whenever the builder's
    compiler renders the selector of the node it is handed. *)
Theorem chain_compiles_last_returnValues
    (cs : list PutItemQueryBuilder.Call) (this : PutItemQueryBuilder.t) :
  rendersReturnValues
    (PutItemQueryBuilderProps.queryCompiler (PutItemQueryBuilder.props this)) →
  Command.ReturnValues (PutItemQueryBuilder.compile (PutItemQueryBuilder.chain cs this))
  = match lastReturnValues cs with
    | Some o => o
    | None =>
        match PutNode.returnValues (PutItemQueryBuilder.node this) with
        | Some rv => ReturnValuesNode.option rv
        | None => NONE
        end
    end.
Proof.
  intros Hqc. unfold PutItemQueryBuilder.compile.
  rewrite chain_queryCompiler, Hqc.
  fold (PutItemQueryBuilder.node (PutItemQueryBuilder.chain cs this)).
  induction cs as [|c cs IH] using rev_ind; [done|].
  rewrite chain_snoc, lastReturnValues_snoc.
  destruct c; first [exact IH|reflexivity].
Qed.

Lemma chain_compiles_last_returnValues_witness :
  rendersReturnValues
    (PutItemQueryBuilderProps.queryCompiler (PutItemQueryBuilder.props myTableBuilder)) ∧
  Command.ReturnValues
    (PutItemQueryBuilder.compile
       (PutItemQueryBuilder.chain
          [PutItemQueryBuilder.CallReturnValues optALL_OLD;
           PutItemQueryBuilder.CallItem {[ "userId" := AVString "333" ]};
           PutItemQueryBuilder.CallReturnValues optNONE]
          myTableBuilder))
  = NONE.
Proof.
  assert (rendersReturnValues
            (PutItemQueryBuilderProps.queryCompiler
               (PutItemQueryBuilder.props myTableBuilder))) as H
    by exact compilePutNode_ReturnValues.
  split; [exact H|].
  exact (chain_compiles_last_returnValues
           [PutItemQueryBuilder.CallReturnValues optALL_OLD;
            PutItemQueryBuilder.CallItem {[ "userId" := AVString "333" ]};
            PutItemQueryBuilder.CallReturnValues optNONE]
           myTableBuilder H).
Defined.
